(** * AirDAW audio engine: a shallow embedding of [audio_engine.c]

    The development follows [src/audio_engine.h] and [src/audio_engine.c]:
    the effect units, the control surface (init, shutdown, add track,
    add / remove / toggle effect, set effect parameter) and the per-period
    audio callback with its oscillator, panning, effect chain, mixing and
    metering.

    Conventions of the embedding.
    - A C [float] is a real number ([R]): rounding, overflow, infinities and
      NaN are outside the model, [MA_PI] is [PI], [sinf], [cosf], [sqrtf],
      [fabsf] are [sin], [cos], [sqrt], [Rabs].  The statements carry the
      conditions under which this reading has a meaning (a period within
      the [BUFFER_SIZE] frames of the stack buffers, no division by zero);
      where the outcome turns on rounding, on NaN or on the binary32 value
      of [MA_PI], the same source lines are embedded in binary32.
    - A C [int] or [ma_uint32] is a [Z]; the one product the callback
      computes in 32-bit unsigned arithmetic is reduced modulo [2^32].
    - A fixed-size C array is a list; [a[i]] is [a !! i] and [a[i] = v] is
      [<[i:=v]> a].  An access outside the array is undefined behaviour in
      C; the model leaves the state as it is there, and the theorems assume
      the well-formedness conditions under which no such access happens.
    - Function-static and pointed-to state is passed explicitly.
    - One callback invocation is modelled sequentially: no write of the
      control thread is interleaved with it. *)

From Stdlib Require Import Reals Lra Lia ZArith String DecimalString.
From Stdlib Require SpecFloat.
From stdpp Require Import base list.

Open Scope R_scope.

Abbreviation float := R.

(** ** Constants ([audio_engine.h]) *)

Definition MAX_TRACKS : Z := 16.
Definition SAMPLE_RATE : Z := 48000.
Definition CHANNELS : Z := 2.
Definition BUFFER_SIZE : Z := 512.
Definition MAX_EFFECTS_PER_TRACK : Z := 8.

(** ** Effects *)

Inductive EffectType : Type :=
| EFFECT_NONE
| EFFECT_GAIN
| EFFECT_LOWPASS
| EFFECT_HIGHPASS
| EFFECT_DELAY
| EFFECT_REVERB.

(** The parameter block of an effect is an anonymous C union of four
    structs of one, two, three and three floats.  Its members overlay each
    other, so the block is three float words: [gain], [cutoff], [time_ms]
    and [room_size] name word 0, [resonance], [feedback] and [damping]
    word 1, and the two [mix] members word 2. *)
Record Effect : Type := mkEffect {
  type : EffectType;
  enabled : bool;
  word0 : float;
  word1 : float;
  word2 : float
}.

Definition gain (e : Effect) : float := word0 e.
Definition cutoff (e : Effect) : float := word0 e.
Definition resonance (e : Effect) : float := word1 e.

Definition set_type (e : Effect) (ty : EffectType) : Effect :=
  mkEffect ty (enabled e) (word0 e) (word1 e) (word2 e).
Definition set_enabled (e : Effect) (b : bool) : Effect :=
  mkEffect (type e) b (word0 e) (word1 e) (word2 e).
Definition set_word0 (e : Effect) (v : float) : Effect :=
  mkEffect (type e) (enabled e) v (word1 e) (word2 e).
Definition set_word1 (e : Effect) (v : float) : Effect :=
  mkEffect (type e) (enabled e) (word0 e) v (word2 e).
Definition set_word2 (e : Effect) (v : float) : Effect :=
  mkEffect (type e) (enabled e) (word0 e) (word1 e) v.

(** Number of parameters the union declares for each kind. *)
Definition param_count (ty : EffectType) : Z :=
  match ty with
  | EFFECT_NONE => 0
  | EFFECT_GAIN => 1
  | EFFECT_LOWPASS | EFFECT_HIGHPASS => 2
  | EFFECT_DELAY | EFFECT_REVERB => 3
  end.

(** ** Tracks and the engine *)

Record Track : Type := mkTrack {
  name : string;
  volume : float;
  pan : float;
  mute : bool;
  solo : bool;
  armed : bool;
  frequency : float;
  phase : float;
  playing : bool;
  effects : list Effect;
  effect_count : Z;
  peak_level : float * float;
  rms_level : float * float
}.

Definition set_phase (t : Track) (p : float) : Track :=
  mkTrack (name t) (volume t) (pan t) (mute t) (solo t) (armed t)
          (frequency t) p (playing t) (effects t) (effect_count t)
          (peak_level t) (rms_level t).
Definition set_effects (t : Track) (l : list Effect) (n : Z) : Track :=
  mkTrack (name t) (volume t) (pan t) (mute t) (solo t) (armed t)
          (frequency t) (phase t) (playing t) l n
          (peak_level t) (rms_level t).
Definition set_meters (t : Track) (pk rm : float * float) : Track :=
  mkTrack (name t) (volume t) (pan t) (mute t) (solo t) (armed t)
          (frequency t) (phase t) (playing t) (effects t) (effect_count t)
          pk rm.

(** The audio sink ([ma_device], [ma_log]) is an external library; only
    its life cycle is kept. *)
Inductive DeviceState : Type := DeviceUninit | DeviceInited | DeviceStarted.

Record DeviceConfig : Type := mkDeviceConfig {
  playback_channels : Z;
  sampleRate : Z;
  periodSizeInFrames : Z
}.

Record AudioEngine : Type := mkEngine {
  device : DeviceState;
  device_config : option DeviceConfig;
  log_ready : bool;
  tracks : list Track;
  track_count : Z;
  master_volume : float;
  master_peak : float * float;
  master_rms : float * float;
  engine_playing : bool;
  initialized : bool
}.

Definition set_tracks (e : AudioEngine) (l : list Track) : AudioEngine :=
  mkEngine (device e) (device_config e) (log_ready e) l (track_count e)
           (master_volume e) (master_peak e) (master_rms e)
           (engine_playing e) (initialized e).
Definition set_master_meters (e : AudioEngine) (pk rm : float * float)
  : AudioEngine :=
  mkEngine (device e) (device_config e) (log_ready e) (tracks e)
           (track_count e) (master_volume e) pk rm
           (engine_playing e) (initialized e).

(** Filter memory of [process_track_effects]: two function-static arrays
    of [MAX_TRACKS] floats, indexed by track slot. *)
Record FilterState : Type := mkFilterState {
  filter_state_l : list float;
  filter_state_r : list float
}.

(** Well-formedness: array sizes and the count invariants of the header. *)
Definition track_wf (t : Track) : Prop :=
  length (effects t) = Z.to_nat MAX_EFFECTS_PER_TRACK /\
  (0 <= effect_count t <= MAX_EFFECTS_PER_TRACK)%Z.

Definition engine_wf (e : AudioEngine) : Prop :=
  length (tracks e) = Z.to_nat MAX_TRACKS /\
  (0 <= track_count e <= MAX_TRACKS)%Z.

Definition filter_wf (fs : FilterState) : Prop :=
  length (filter_state_l fs) = Z.to_nat MAX_TRACKS /\
  length (filter_state_r fs) = Z.to_nat MAX_TRACKS.

(** ** Effect processing *)

Definition process_gain_effect (sample : float) (effect : Effect) : float :=
  if negb (enabled effect) then sample
  else sample * gain effect.

(** The stateful filters return the output sample and the new [*state].
    Both divide by [cutoff + 1]: at [cutoff = -1] the code divides by
    zero and its state and output become NaN, which no real number
    renders; the statements about filtered samples take
    [division_defined], and [process_lowpass_effect32] is the lowpass in
    binary32. *)
Definition process_lowpass_effect (sample : float) (effect : Effect)
    (state : float) : float * float :=
  if negb (enabled effect) then (sample, state)
  else
    let cutoff := cutoff effect in
    let alpha := cutoff / (cutoff + 1) in
    let state' := alpha * sample + (1 - alpha) * state in
    (state', state').

Definition process_highpass_effect (sample : float) (effect : Effect)
    (state : float) : float * float :=
  if negb (enabled effect) then (sample, state)
  else
    let cutoff := cutoff effect in
    let alpha := 1 / (cutoff + 1) in
    let output := sample - state in
    (output, state + alpha * output).

(** One channel of a filter loop [for f in 0..frame_count-1]: the buffer is
    rewritten in place, the state is carried from frame to frame. *)
Fixpoint filter_run (step : float -> Effect -> float -> float * float)
    (effect : Effect) (buf : list float) (state : float)
  : list float * float :=
  match buf with
  | [] => ([], state)
  | x :: buf' =>
      let '(y, state1) := step x effect state in
      let '(ys, state2) := filter_run step effect buf' state1 in
      (y :: ys, state2)
  end.

(** A filter case of the [switch]: the loop body handles the left sample
    with [filter_state_l[track_idx]] and the right sample with
    [filter_state_r[track_idx]]; the two channels share nothing, so each is
    run over the whole period. *)
Definition filter_case (step : float -> Effect -> float -> float * float)
    (effect : Effect) (track_idx : nat) (left right : list float)
    (fs : FilterState) : list float * list float * FilterState :=
  match filter_state_l fs !! track_idx, filter_state_r fs !! track_idx with
  | Some sl, Some sr =>
      let '(left', sl') := filter_run step effect left sl in
      let '(right', sr') := filter_run step effect right sr in
      (left', right',
       mkFilterState (<[track_idx := sl']> (filter_state_l fs))
                     (<[track_idx := sr']> (filter_state_r fs)))
  | _, _ => (left, right, fs)
  end.

Definition apply_effect (effect : Effect) (track_idx : nat)
    (left right : list float) (fs : FilterState)
  : list float * list float * FilterState :=
  match type effect with
  | EFFECT_GAIN =>
      (map (fun s => process_gain_effect s effect) left,
       map (fun s => process_gain_effect s effect) right, fs)
  | EFFECT_LOWPASS =>
      filter_case process_lowpass_effect effect track_idx left right fs
  | EFFECT_HIGHPASS =>
      filter_case process_highpass_effect effect track_idx left right fs
  | EFFECT_DELAY => (left, right, fs)
  | EFFECT_REVERB => (left, right, fs)
  | EFFECT_NONE => (left, right, fs)
  end.

(** [for (int i = 0; i < track->effect_count; i++)] over [track->effects]. *)
Fixpoint effects_loop (chain : list Effect) (track_idx : nat)
    (left right : list float) (fs : FilterState)
  : list float * list float * FilterState :=
  match chain with
  | [] => (left, right, fs)
  | effect :: chain' =>
      let '(left1, right1, fs1) := apply_effect effect track_idx left right fs in
      effects_loop chain' track_idx left1 right1 fs1
  end.

Definition process_track_effects (track : Track) (track_idx : nat)
    (left right : list float) (fs : FilterState)
  : list float * list float * FilterState :=
  effects_loop (take (Z.to_nat (effect_count track)) (effects track))
               track_idx left right fs.

(** ** The audio callback *)

(** [memset(out, 0, frame_count * CHANNELS * sizeof(float))]: the product
    [frame_count * CHANNELS] is a 32-bit unsigned product; the byte count
    is then formed in [size_t] (taken to be wider than 32 bits), so the
    call zeroes that many floats at the start of the buffer. *)
Definition zeroed_floats (frame_count : Z) : nat :=
  Z.to_nat ((frame_count * CHANNELS) mod 2 ^ 32).

Definition memset_zero (buf : list float) (k : nat) : list float :=
  replicate (k `min` length buf) 0 ++ drop k buf.

(** The solo scan: [for t in 0..track_count-1] with [break] at the first
    soloed track. *)
Definition track_solo (e : AudioEngine) (t : nat) : bool :=
  match tracks e !! t with
  | Some track => solo track
  | None => false
  end.

Definition any_solo (e : AudioEngine) : bool :=
  existsb (track_solo e) (seq 0 (Z.to_nat (track_count e))).

(** The oscillator.  The pan gains are the cosine and sine of
    [(pan + 1) * MA_PI / 4] with [MA_PI] read as pi; [pan_angle32] is the
    angle as binary32 computes it. *)
Definition advance_phase (phase frequency : float) : float :=
  let phase1 := phase + 2 * PI * frequency / IZR SAMPLE_RATE in
  if Rgt_dec phase1 (2 * PI) then phase1 - 2 * PI else phase1.

Definition left_gain (pan : float) : float := cos ((pan + 1) * PI / 4).
Definition right_gain (pan : float) : float := sin ((pan + 1) * PI / 4).

(** The generation loop: [n] samples into [temp_left] and [temp_right],
    the phase advanced in the track.  The two buffers are arrays of
    [BUFFER_SIZE] floats on the stack of the callback: the definition is
    the code's loop for [n <= BUFFER_SIZE]; a longer period writes past
    the arrays, and no statement is made for it. *)
Fixpoint generate (n : nat) (track : Track)
  : Track * list float * list float :=
  match n with
  | O => (track, [], [])
  | S n' =>
      let sample := sin (phase track) * volume track * 0.3 in
      let track1 :=
        set_phase track (advance_phase (phase track) (frequency track)) in
      let pan := pan track1 in
      let '(track2, temp_left, temp_right) := generate n' track1 in
      (track2, sample * left_gain pan :: temp_left,
               sample * right_gain pan :: temp_right)
  end.

(** The mixing and metering loop, at frame [i]:
    [out[i*2+0] += temp_left[i]], [out[i*2+1] += temp_right[i]], peak and
    sum of squares updated in the track's meter fields.  Peak and sum of
    squares are taken over the reals here; [meter_loop32] is the metering
    of one channel with every operation rounded to binary32. *)
Fixpoint mix_and_meter (i : nat) (temp_left temp_right out : list float)
    (pk rm : float * float)
  : list float * (float * float) * (float * float) :=
  match temp_left, temp_right with
  | l :: temp_left', r :: temp_right' =>
      let out1 := alter (fun o => o + l) (i * 2 + 0)%nat out in
      let out2 := alter (fun o => o + r) (i * 2 + 1)%nat out1 in
      let abs_left := Rabs l in
      let abs_right := Rabs r in
      let pk0 := if Rgt_dec abs_left (fst pk) then abs_left else fst pk in
      let pk1 := if Rgt_dec abs_right (snd pk) then abs_right else snd pk in
      mix_and_meter (S i) temp_left' temp_right' out2
                    (pk0, pk1) (fst rm + l * l, snd rm + r * r)
  | _, _ => (out, pk, rm)
  end.

(** State of the callback while it runs: the engine, the static filter
    memory and the output buffer. *)
Record MixState : Type := mkMixState {
  st_engine : AudioEngine;
  st_filters : FilterState;
  st_out : list float
}.

(** [if (track->effect_count > 0) process_track_effects(...)]. *)
Definition effects_stage (track : Track) (t : nat)
    (left right : list float) (fs : FilterState)
  : list float * list float * FilterState :=
  if (0 <? effect_count track)%Z
  then process_track_effects track t left right fs
  else (left, right, fs).

(** Body of the track loop after the two [continue] tests.  The last two
    lines divide by [frame_count]: for [frame_count = 0] the code computes
    [sqrtf(0.0f / 0)], a NaN, so the statements about [rms_level] take
    [0 < frame_count]; those about the samples take
    [frame_count <= BUFFER_SIZE], the size of the two temp arrays. *)
Definition render_track (frame_count : Z) (t : nat) (track : Track)
    (st : MixState) : MixState :=
  let track1 := set_meters track (0, 0) (0, 0) in
  let '(track2, temp_left, temp_right) :=
    generate (Z.to_nat frame_count) track1 in
  let '(temp_left', temp_right', fs') :=
    effects_stage track2 t temp_left temp_right (st_filters st) in
  let '(out', pk, rm) :=
    mix_and_meter 0 temp_left' temp_right' (st_out st)
                  (peak_level track2) (rms_level track2) in
  let track3 :=
    set_meters track2 pk
      (sqrt (fst rm / IZR frame_count), sqrt (snd rm / IZR frame_count)) in
  mkMixState
    (set_tracks (st_engine st) (<[t := track3]> (tracks (st_engine st))))
    fs' out'.

Definition mix_track (solo_any : bool) (frame_count : Z) (st : MixState)
    (t : nat) : MixState :=
  match tracks (st_engine st) !! t with
  | None => st
  | Some track =>
      if mute track || negb (playing track) then st
      else if solo_any && negb (solo track) then st
      else render_track frame_count t track st
  end.

(** Master stage, at frame [i]: scale both samples by [master_volume],
    then update the master peak and sum of squares from the scaled
    samples. *)
Fixpoint master_loop (i n : nat) (master_volume : float) (out : list float)
    (pk rm : float * float)
  : list float * (float * float) * (float * float) :=
  match n with
  | O => (out, pk, rm)
  | S n' =>
      let out1 := alter (fun o => o * master_volume) (i * 2 + 0)%nat out in
      let out2 := alter (fun o => o * master_volume) (i * 2 + 1)%nat out1 in
      let o_left := default 0 (out2 !! (i * 2 + 0)%nat) in
      let o_right := default 0 (out2 !! (i * 2 + 1)%nat) in
      let abs_left := Rabs o_left in
      let abs_right := Rabs o_right in
      let pk0 := if Rgt_dec abs_left (fst pk) then abs_left else fst pk in
      let pk1 := if Rgt_dec abs_right (snd pk) then abs_right else snd pk in
      master_loop (S i) n' master_volume out2 (pk0, pk1)
                  (fst rm + o_left * o_left, snd rm + o_right * o_right)
  end.

(** The track loop of the callback. *)
Definition mix_tracks (solo_any : bool) (frame_count : Z) (st : MixState)
  : MixState :=
  foldl (mix_track solo_any frame_count) st
        (seq 0 (Z.to_nat (track_count (st_engine st)))).

(** The last loop of the callback and the two [sqrtf] lines after it.
    As for the track meters, the statements about [master_rms] take
    [0 < frame_count]. *)
Definition master_stage (st : MixState) (frame_count : Z) : MixState :=
  let '(out', pk, rm) :=
    master_loop 0 (Z.to_nat frame_count) (master_volume (st_engine st))
                (st_out st) (master_peak (st_engine st))
                (master_rms (st_engine st)) in
  mkMixState
    (set_master_meters (st_engine st) pk
       (sqrt (fst rm / IZR frame_count), sqrt (snd rm / IZR frame_count)))
    (st_filters st) out'.

Definition audio_callback (engine : AudioEngine) (fs : FilterState)
    (out : list float) (frame_count : Z) : MixState :=
  if negb (engine_playing engine)
  then mkMixState engine fs (memset_zero out (zeroed_floats frame_count))
  else
    let out0 := memset_zero out (zeroed_floats frame_count) in
    let engine1 := set_master_meters engine (0, 0) (0, 0) in
    let solo_any := any_solo engine1 in
    let st := mix_tracks solo_any frame_count (mkMixState engine1 fs out0) in
    master_stage st frame_count.

(** ** The control surface *)

(** Outcome of the two calls into the audio sink made by [init]. *)
Record SinkOutcome : Type := mkSinkOutcome {
  device_init_ok : bool;
  device_start_ok : bool
}.

Definition fixed_config : DeviceConfig :=
  mkDeviceConfig CHANNELS SAMPLE_RATE BUFFER_SIZE.

Definition audio_engine_init (engine : AudioEngine) (sink : SinkOutcome)
  : bool * AudioEngine :=
  (* master_volume = 0.75F; track_count = 0; playing = false *)
  let tracks0 := tracks engine in
  let pk := master_peak engine in
  let rm := master_rms engine in
  let ini := initialized engine in
  (* ma_log_init; device_config = ... *)
  let configured dev lg ini' :=
    mkEngine dev (Some fixed_config) lg tracks0 0%Z 0.75 pk rm false ini' in
  if negb (device_init_ok sink)
  then (* ma_log_uninit *) (false, configured DeviceUninit false ini)
  else if negb (device_start_ok sink)
  then (* ma_device_uninit; ma_log_uninit *)
    (false, configured DeviceUninit false ini)
  else (true, configured DeviceStarted true true).

Definition audio_engine_shutdown (engine : AudioEngine) : AudioEngine :=
  if initialized engine
  then mkEngine DeviceUninit (device_config engine) false (tracks engine)
                (track_count engine) (master_volume engine)
                (master_peak engine) (master_rms engine) false false
  else engine.

(** [snprintf(track->name, sizeof(track->name), "%s", name)] with
    [char name[64]]: at most 63 characters are stored. *)
Definition snprintf_name (s : string) : string := String.substring 0 63 s.

Definition audio_engine_add_track (engine : AudioEngine) (nm : string)
    (freq : float) : Z * AudioEngine :=
  if (track_count engine >=? MAX_TRACKS)%Z then ((-1)%Z, engine)
  else
    let index := track_count engine in
    let init_track (track : Track) : Track :=
      mkTrack (snprintf_name nm) 0.75 0 false false false freq 0 false
              (effects track) 0%Z (peak_level track) (rms_level track) in
    (index,
     mkEngine (device engine) (device_config engine) (log_ready engine)
              (alter init_track (Z.to_nat index) (tracks engine))
              (track_count engine + 1)%Z (master_volume engine)
              (master_peak engine) (master_rms engine)
              (engine_playing engine) (initialized engine)).

Definition default_params (ty : EffectType) (effect : Effect) : Effect :=
  match ty with
  | EFFECT_GAIN => set_word0 effect 1
  | EFFECT_LOWPASS | EFFECT_HIGHPASS =>
      set_word1 (set_word0 effect 1000) 1
  | EFFECT_DELAY =>
      set_word2 (set_word1 (set_word0 effect 250) 0.3) 0.5
  | EFFECT_REVERB =>
      set_word2 (set_word1 (set_word0 effect 0.5) 0.5) 0.3
  | EFFECT_NONE => effect
  end.

Definition audio_engine_add_effect (track : Track) (ty : EffectType)
  : Track :=
  if (effect_count track >=? MAX_EFFECTS_PER_TRACK)%Z then track
  else
    let slot := Z.to_nat (effect_count track) in
    let init_effect (effect : Effect) : Effect :=
      default_params ty (set_enabled (set_type effect ty) true) in
    set_effects track (alter init_effect slot (effects track))
                (effect_count track + 1)%Z.

(** [for (i = effect_index; i < effect_count - 1; i++)
       effects[i] = effects[i + 1]]. *)
Fixpoint shift_down (l : list Effect) (i steps : nat) : list Effect :=
  match steps with
  | O => l
  | S steps' =>
      let l' := match l !! S i with
                | Some e => <[i := e]> l
                | None => l
                end in
      shift_down l' (S i) steps'
  end.

Definition audio_engine_remove_effect (track : Track) (effect_index : Z)
  : Track :=
  if ((effect_index <? 0) || (effect_index >=? effect_count track))%Z
  then track
  else
    set_effects track
      (shift_down (effects track) (Z.to_nat effect_index)
                  (Z.to_nat (effect_count track - 1 - effect_index)))
      (effect_count track - 1)%Z.

Definition audio_engine_toggle_effect (track : Track) (effect_index : Z)
  : Track :=
  if ((effect_index <? 0) || (effect_index >=? effect_count track))%Z
  then track
  else
    set_effects track
      (alter (fun e => set_enabled e (negb (enabled e)))
             (Z.to_nat effect_index) (effects track))
      (effect_count track).

Definition audio_engine_set_effect_param (effect : Effect) (param_index : Z)
    (value : float) : Effect :=
  match type effect with
  | EFFECT_GAIN =>
      if (param_index =? 0)%Z then set_word0 effect value else effect
  | EFFECT_LOWPASS | EFFECT_HIGHPASS =>
      if (param_index =? 0)%Z then set_word0 effect value
      else if (param_index =? 1)%Z then set_word1 effect value
      else effect
  | EFFECT_DELAY | EFFECT_REVERB =>
      if (param_index =? 0)%Z then set_word0 effect value
      else if (param_index =? 1)%Z then set_word1 effect value
      else if (param_index =? 2)%Z then set_word2 effect value
      else effect
  | EFFECT_NONE => effect
  end.

(** ** Notions used by the statements *)

(** Phase of the oscillator before sample [i] of a period. *)
Definition phase_at (track : Track) (i : nat) : float :=
  Nat.iter i (fun p => advance_phase p (frequency track)) (phase track).

(** The test of the track loop: [true] when one of the two [continue]
    statements is taken. *)
Definition skipped (solo_any : bool) (track : Track) : bool :=
  if mute track || negb (playing track) then true
  else if solo_any && negb (solo track) then true
  else false.

(** Some track among the first [track_count] is soloed. *)
Definition some_solo (e : AudioEngine) : Prop :=
  exists (u : nat) (track : Track),
    (u < Z.to_nat (track_count e))%nat /\
    tracks e !! u = Some track /\ solo track = true.

(** The skip condition as the specification words it: muted, or not
    playing, or some track is soloed and this one is not. *)
Definition skip_condition (e : AudioEngine) (track : Track) : Prop :=
  mute track = true \/ playing track = false \/
  (some_solo e /\ solo track = false).

(** The loop body without the two tests, on the track in slot [t]. *)
Definition render_at (frame_count : Z) (st : MixState) (t : nat)
  : MixState :=
  match tracks (st_engine st) !! t with
  | Some track => render_track frame_count t track st
  | None => st
  end.

(** State of the callback when it enters the track loop. *)
Definition loop_entry (e : AudioEngine) (fs : FilterState)
    (out : list float) (frame_count : Z) : MixState :=
  mkMixState (set_master_meters e (0, 0) (0, 0)) fs
             (memset_zero out (zeroed_floats frame_count)).

(** Indices the track loop renders, in loop order. *)
Definition rendered (e : AudioEngine) (t : nat) : bool :=
  match tracks e !! t with
  | Some track => negb (skipped (any_solo e) track)
  | None => false
  end.

Definition included_tracks (e : AudioEngine) : list nat :=
  filter (fun t => rendered e t = true) (seq 0 (Z.to_nat (track_count e))).

(** Post-effects samples of a track for one period: what the callback
    holds in [temp_left] and [temp_right] when it reaches the mixing
    loop, for the track as it is at the start of the period and the
    filter memory [fs]. *)
Definition track_buffers (frame_count : Z) (t : nat) (track : Track)
    (fs : FilterState) : list float * list float :=
  let '(track2, temp_left, temp_right) :=
    generate (Z.to_nat frame_count) (set_meters track (0, 0) (0, 0)) in
  fst (effects_stage track2 t temp_left temp_right fs).

(** Two filter memories agree at slot [t]. *)
Definition slot_agree (t : nat) (fs1 fs2 : FilterState) : Prop :=
  filter_state_l fs1 !! t = filter_state_l fs2 !! t /\
  filter_state_r fs1 !! t = filter_state_r fs2 !! t.

(** Sum of the squares and largest absolute value of a sample buffer, as
    the specification words them. *)
Definition sum_squares (buf : list float) : float :=
  foldr (fun x acc => x * x + acc) 0 buf.

Definition max_abs (buf : list float) : float :=
  foldr (fun x m => Rmax (Rabs x) m) 0 buf.

(** Bound on the output of a one-pole filter fed with samples in [-1, 1],
    from the filter memory it starts with. *)
Definition filter_bound (state0 : float) : float := 1 + Rmax 1 (Rabs state0).

(** Sample data: a cleared track slot, a cleared engine as a zeroed
    [AudioEngine] object is, and a small session. *)
Definition zero_effect : Effect := mkEffect EFFECT_NONE false 0 0 0.

Definition zero_track : Track :=
  mkTrack EmptyString 0 0 false false false 0 0 false
          (replicate 8 zero_effect) 0%Z (0, 0) (0, 0).

Definition zero_engine : AudioEngine :=
  mkEngine DeviceUninit None false (replicate 16 zero_track) 0%Z 0
           (0, 0) (0, 0) false false.

Definition zero_filters : FilterState :=
  mkFilterState (replicate 16 0) (replicate 16 0).

Definition demo_track (nm : string) (freq : float) (m s p : bool) : Track :=
  mkTrack nm 0.75 0 m s false freq 0 p
          (replicate 8 zero_effect) 0%Z (0, 0) (0, 0).

(** Three tracks, the second one soloed, the third one muted. *)
Definition demo_engine : AudioEngine :=
  mkEngine DeviceStarted (Some fixed_config) true
           (demo_track "Bass" 110 false false true ::
            demo_track "Lead" 440 false true true ::
            demo_track "Pad" 220 true false true ::
            replicate 13 zero_track)
           3%Z 0.75 (0, 0) (0, 0) true true.

Definition lowpass_1k : Effect := mkEffect EFFECT_LOWPASS true 1000 1 0.

(** A track whose chain is full. *)
Definition full_track : Track :=
  mkTrack "Full" 0.75 0 false false false 110 0 false
          (replicate 8 lowpass_1k) 8%Z (0, 0) (0, 0).

(** An oscillator set above the sample rate, and one at half of it. *)
Definition fast_track : Track := demo_track "Fast" 96000 false false true.
Definition nyquist_track : Track :=
  demo_track "Nyquist" 24000 false false true.

(** ** The control thread: [ui_handle_interactions]

    The caller of the control surface in the UI layer.  Of [UIState] only
    the action fields the handler reads are kept. *)

Record UIState : Type := mkUIState {
  add_track_requested : bool;
  track_play_toggle : Z;
  track_mute_toggle : Z;
  track_solo_toggle : Z;
  master_play_toggle : bool;
  track_add_effect : Z;
  effect_to_add : EffectType
}.

Definition set_playing (t : Track) (b : bool) : Track :=
  mkTrack (name t) (volume t) (pan t) (mute t) (solo t) (armed t)
          (frequency t) (phase t) b (effects t) (effect_count t)
          (peak_level t) (rms_level t).
Definition set_mute (t : Track) (b : bool) : Track :=
  mkTrack (name t) (volume t) (pan t) b (solo t) (armed t)
          (frequency t) (phase t) (playing t) (effects t) (effect_count t)
          (peak_level t) (rms_level t).
Definition set_solo (t : Track) (b : bool) : Track :=
  mkTrack (name t) (volume t) (pan t) (mute t) b (armed t)
          (frequency t) (phase t) (playing t) (effects t) (effect_count t)
          (peak_level t) (rms_level t).
Definition set_engine_playing (e : AudioEngine) (b : bool) : AudioEngine :=
  mkEngine (device e) (device_config e) (log_ready e) (tracks e)
           (track_count e) (master_volume e) (master_peak e) (master_rms e)
           b (initialized e).

(** The test [index >= 0 && index < engine->track_count]. *)
Definition track_index_ok (index : Z) (engine : AudioEngine) : bool :=
  (index >=? 0)%Z && (index <? track_count engine)%Z.

(** [snprintf(name, sizeof(name), "Track %d", n)] with [char name[32]]. *)
Definition format_track_name (n : Z) : string :=
  String.substring 0 31 ("Track " ++ NilZero.string_of_int (Z.to_int n)).

(** [220.0F * powf(2.0F, (float)track_count / 12.0F)]. *)
Definition next_track_frequency (count : Z) : float :=
  220 * Rpower 2 (IZR count / 12).

(** The guarded access the handler makes four times:
    [if (index >= 0 && index < engine->track_count)
       { Track *track = &engine->tracks[index]; ... }]. *)
Definition with_track (index : Z) (f : Track -> Track)
    (engine : AudioEngine) : AudioEngine :=
  if track_index_ok index engine
  then set_tracks engine (alter f (Z.to_nat index) (tracks engine))
  else engine.

Definition ui_handle_interactions (ui_state : UIState)
    (engine : AudioEngine) : AudioEngine :=
  (* track play toggle *)
  let engine1 :=
    with_track (track_play_toggle ui_state)
      (fun track => set_playing track (negb (playing track))) engine in
  (* track mute toggle *)
  let engine2 :=
    with_track (track_mute_toggle ui_state)
      (fun track => set_mute track (negb (mute track))) engine1 in
  (* track solo toggle *)
  let engine3 :=
    with_track (track_solo_toggle ui_state)
      (fun track => set_solo track (negb (solo track))) engine2 in
  (* master play toggle *)
  let engine4 :=
    if master_play_toggle ui_state
    then set_engine_playing engine3 (negb (engine_playing engine3))
    else engine3 in
  (* add track request *)
  let engine5 :=
    if add_track_requested ui_state
       && (track_count engine4 <? MAX_TRACKS)%Z
    then snd (audio_engine_add_track engine4
                (format_track_name (track_count engine4 + 1))
                (next_track_frequency (track_count engine4)))
    else engine4 in
  (* add effect request *)
  with_track (track_add_effect ui_state)
    (fun track => audio_engine_add_effect track (effect_to_add ui_state))
    engine5.

(** Slot [j] is the target of a toggle with index [index]. *)
Definition toggled (index : Z) (engine : AudioEngine) (j : nat) : bool :=
  track_index_ok index engine && (Z.to_nat index =? j)%nat.

(** A UI state that requests nothing: the toggles at -1, the flags off. *)
Definition idle_ui : UIState :=
  mkUIState false (-1) (-1) (-1) false (-1) EFFECT_NONE.

(** ** Further notions used by the statements *)

(** Every slot of the track array, used or not, is a well-formed track. *)
Definition tracks_wf (e : AudioEngine) : Prop :=
  Forall track_wf (tracks e).

(** The fields of a track the control thread owns: all but the phase and
    the meters. *)
Definition controls_eq (a b : Track) : Prop :=
  name a = name b /\ volume a = volume b /\ pan a = pan b /\
  mute a = mute b /\ solo a = solo b /\ armed a = armed b /\
  frequency a = frequency b /\ playing a = playing b /\
  effects a = effects b /\ effect_count a = effect_count b.

(** Interleaved stereo layout of a left and a right buffer, and back. *)
Fixpoint interleave (left right : list float) : list float :=
  match left, right with
  | l :: left', r :: right' => l :: r :: interleave left' right'
  | _, _ => []
  end.

Fixpoint deinterleave (buf : list float) : list float * list float :=
  match buf with
  | l :: r :: buf' =>
      (l :: fst (deinterleave buf'), r :: snd (deinterleave buf'))
  | _ => ([], [])
  end.

(** What track [t] adds to the output buffer in one period: its
    post-effects samples, interleaved. *)
Definition track_contribution (e : AudioEngine) (fs : FilterState)
    (frame_count : Z) (t : nat) : list float :=
  match tracks e !! t with
  | Some track =>
      interleave (fst (track_buffers frame_count t track fs))
                 (snd (track_buffers frame_count t track fs))
  | None => []
  end.

(** The sum of the contributions of the tracks in [l], in list order, on
    top of [acc]. *)
Definition mix_sum (e : AudioEngine) (fs : FilterState) (frame_count : Z)
    (acc : list float) (l : list nat) : list float :=
  foldl (fun acc t =>
           zip_with Rplus acc (track_contribution e fs frame_count t))
        acc l.

(** A run of [add_track] calls. *)
Definition add_tracks (e : AudioEngine) (requests : list (string * float))
  : AudioEngine :=
  foldl (fun e r => snd (audio_engine_add_track e (fst r) (snd r)))
        e requests.

(** Parameter [i] of an effect, read through the union: word [i]. *)
Definition effect_param (e : Effect) (i : Z) : float :=
  if (i =? 0)%Z then word0 e
  else if (i =? 1)%Z then word1 e
  else word2 e.

(** The chain [process_track_effects] runs: the first [effect_count]
    entries of the array. *)
Definition live_chain (track : Track) : list Effect :=
  take (Z.to_nat (effect_count track)) (effects track).

(** An effect that is bypassed or at unity: a stub kind, a disabled
    effect, or an enabled gain of 1. *)
Definition transparent (e : Effect) : Prop :=
  match type e with
  | EFFECT_GAIN => enabled e = false \/ gain e = 1
  | EFFECT_LOWPASS | EFFECT_HIGHPASS => enabled e = false
  | EFFECT_DELAY | EFFECT_REVERB | EFFECT_NONE => True
  end.

(** Per-sample phase increment of the oscillator of a track. *)
Definition phase_step (track : Track) : float :=
  2 * PI * frequency track / IZR SAMPLE_RATE.



(** An enabled gain stage. *)
Definition gain_stage (g : float) : Effect := mkEffect EFFECT_GAIN true g 0 0.

(** ** Domain of the real-number reading

    The callback holds the samples of a track in [temp_left] and
    [temp_right], two arrays of [BUFFER_SIZE] floats on its stack, and
    divides by [frame_count] and by [cutoff + 1].  The statements about
    [generate], [track_buffers] and the callback are made for periods of
    at most [BUFFER_SIZE] frames, those about an RMS value for at least one
    frame, and those about the samples behind a filter for chains whose
    divisions are defined. *)

(** The division of a filter unit is defined: an enabled lowpass or
    highpass does not have [cutoff = -1]. *)
Definition division_defined (effect : Effect) : Prop :=
  match type effect with
  | EFFECT_LOWPASS | EFFECT_HIGHPASS =>
      enabled effect = true -> cutoff effect + 1 <> 0
  | EFFECT_NONE | EFFECT_GAIN | EFFECT_DELAY | EFFECT_REVERB => True
  end.

Definition chain_defined (track : Track) : Prop :=
  Forall division_defined (live_chain track).

(** Every track the loop renders has a chain whose divisions are defined. *)
Definition chains_defined (e : AudioEngine) : Prop :=
  forall (t : nat) (track : Track),
    t ∈ included_tracks e -> tracks e !! t = Some track ->
    chain_defined track.

(** The oscillator across successive periods: each period runs the
    generation loop on the track the previous one left. *)
Definition run_periods (track : Track) (periods : list nat) : Track :=
  foldl (fun tr n => fst (fst (generate n tr))) track periods.


(** The demo session with a lowpass at 1 kHz on the soloed track. *)
Definition filtered_lead : Track :=
  set_effects (demo_track "Lead" 440 false true true)
    (lowpass_1k :: replicate 7 zero_effect) 1.

Definition filtered_engine : AudioEngine :=
  mkEngine DeviceStarted (Some fixed_config) true
           (demo_track "Bass" 110 false false true ::
            filtered_lead ::
            demo_track "Pad" 220 true false true ::
            replicate 13 zero_track)
           3%Z 0.75 (0, 0) (0, 0) true true.

(** A session of two tracks, one muted and one stopped. *)
Definition idle_engine : AudioEngine :=
  mkEngine DeviceStarted (Some fixed_config) true
           (demo_track "Bass" 110 true false true ::
            demo_track "Lead" 440 false false false ::
            replicate 14 zero_track)
           2%Z 0.75 (0, 0) (0, 0) true true.

(** ** The arithmetic as the code runs it: binary32

    Where a statement turns on rounding, on a division by zero or on the
    value of [MA_PI], the real-number reading is not enough.  The
    following definitions embed the same source lines in IEEE 754
    binary32, every operation rounded to nearest even ([SpecFloat] of the
    standard library at precision 24 and maximal exponent 128).  [sinf]
    and [cosf] are functions of the C library: their results enter as
    values. *)















(** ** Effect units: stability of the one-pole filters *)

Lemma alpha_lowpass_range (c : float) :
  0 < c -> 0 < c / (c + 1) < 1.
Proof.
  intros Hc.
  assert (Hm : c / (c + 1) * (c + 1) = c) by (field; lra).
  split; nra.
Qed.

Lemma alpha_highpass_range (c : float) :
  0 < c -> 0 < 1 / (c + 1) < 1.
Proof.
  intros Hc.
  assert (Hm : 1 / (c + 1) * (c + 1) = 1) by (field; lra).
  split; nra.
Qed.

Lemma Rabs_le_iff (x b : float) : Rabs x <= b <-> - b <= x <= b.
Proof.
  split.
  - unfold Rabs. destruct (Rcase_abs x); lra.
  - intros H. apply Rabs_le. lra.
Qed.

Lemma convex_step_bound (a x s M : float) :
  0 < a < 1 -> 1 <= M -> Rabs x <= 1 -> Rabs s <= M ->
  Rabs (a * x + (1 - a) * s) <= M.
Proof.
  rewrite !Rabs_le_iff. intros Ha HM Hx Hs. split; nra.
Qed.

Lemma lowpass_step_bound (effect : Effect) (x s M : float) :
  0 < cutoff effect -> 1 <= M -> Rabs x <= 1 -> Rabs s <= M ->
  Rabs (fst (process_lowpass_effect x effect s)) <= M /\
  Rabs (snd (process_lowpass_effect x effect s)) <= M.
Proof.
  intros Hc HM Hx Hs. unfold process_lowpass_effect.
  destruct (enabled effect); simpl.
  - pose proof (alpha_lowpass_range _ Hc) as Ha.
    split; apply convex_step_bound; assumption.
  - split; [lra | assumption].
Qed.

Lemma highpass_step_bound (effect : Effect) (x s M : float) :
  0 < cutoff effect -> 1 <= M -> Rabs x <= 1 -> Rabs s <= M ->
  Rabs (fst (process_highpass_effect x effect s)) <= 1 + M /\
  Rabs (snd (process_highpass_effect x effect s)) <= M.
Proof.
  intros Hc HM Hx Hs. unfold process_highpass_effect.
  destruct (enabled effect); simpl.
  - pose proof (alpha_highpass_range _ Hc) as Ha. split.
    + revert Hx Hs. rewrite !Rabs_le_iff. lra.
    + replace (s + 1 / (cutoff effect + 1) * (x - s))
        with (1 / (cutoff effect + 1) * x
              + (1 - 1 / (cutoff effect + 1)) * s) by ring.
      apply convex_step_bound; assumption.
  - split; [lra | assumption].
Qed.

(** A run of a per-sample step that keeps the state within [M] and the
    output within [B] keeps every output of the run within [B]. *)
Lemma filter_run_bound (step : float -> Effect -> float -> float * float)
    (effect : Effect) (M B : float) :
  (forall x s, Rabs x <= 1 -> Rabs s <= M ->
     Rabs (fst (step x effect s)) <= B /\
     Rabs (snd (step x effect s)) <= M) ->
  forall inputs state,
    Forall (fun x => Rabs x <= 1) inputs -> Rabs state <= M ->
    Forall (fun y => Rabs y <= B) (fst (filter_run step effect inputs state))
    /\ Rabs (snd (filter_run step effect inputs state)) <= M.
Proof.
  intros Hstep inputs.
  induction inputs as [|x inputs IH]; intros state Hin Hs; simpl.
  - split; [constructor | assumption].
  - inversion Hin as [|? ? Hx Hrest]; subst.
    destruct (Hstep x state Hx Hs) as [Hy Hs1].
    destruct (step x effect state) as [y state1]; simpl in *.
    destruct (IH state1 Hrest Hs1) as [Hys Hs2].
    destruct (filter_run step effect inputs state1) as [ys state2];
      simpl in *.
    split; [constructor; assumption | assumption].
Qed.

(** C8. For every cutoff above zero, every initial filter memory and every
    input sequence within [-1, 1], of any length, every output of the
    one-pole lowpass run and of the one-pole highpass run is bounded in
    absolute value by [filter_bound state0], a bound that depends on the
    initial memory only. *)
Theorem one_pole_filters_bounded (state0 : float) (effect : Effect)
    (inputs : list float) :
  0 < cutoff effect ->
  Forall (fun x => Rabs x <= 1) inputs ->
  Forall (fun y => Rabs y <= filter_bound state0)
         (fst (filter_run process_lowpass_effect effect inputs state0)) /\
  Forall (fun y => Rabs y <= filter_bound state0)
         (fst (filter_run process_highpass_effect effect inputs state0)).
Proof.
  intros Hc Hin. unfold filter_bound.
  set (M := Rmax 1 (Rabs state0)).
  assert (HM : 1 <= M) by apply Rmax_l.
  assert (Hs : Rabs state0 <= M) by apply Rmax_r.
  split.
  - apply (filter_run_bound process_lowpass_effect effect M (1 + M));
      try assumption.
    intros x s Hx Hsm.
    destruct (lowpass_step_bound effect x s M Hc HM Hx Hsm) as [H1 H2].
    split; [lra | assumption].
  - apply (filter_run_bound process_highpass_effect effect M (1 + M));
      try assumption.
    intros x s Hx Hsm.
    apply highpass_step_bound; assumption.
Qed.

Lemma one_pole_filters_bounded_witness :
  Forall (fun y => Rabs y <= filter_bound 0)
         (fst (filter_run process_lowpass_effect lowpass_1k [1; -1] 0)) /\
  Forall (fun y => Rabs y <= filter_bound 0)
         (fst (filter_run process_highpass_effect lowpass_1k [1; -1] 0)).
Proof.
  apply (one_pole_filters_bounded 0 lowpass_1k [1; -1]).
  - cbv [cutoff lowpass_1k word0]. lra.
  - constructor; [ | constructor; [ | constructor ] ].
    + apply Rabs_le; lra.
    + apply Rabs_le; lra.
Defined.

(** ** Control surface: rejected effect operations *)

(** C6. [add_effect] on a chain of 8 effects returns the track as it was;
    [remove_effect] and [toggle_effect] with an index outside
    [0, effect_count) return the track as it was; [set_effect_param] with
    a parameter index for which the effect's kind declares no parameter
    (a negative index, 1 and above for Gain, 2 and above for the filters,
    3 and above for Delay and Reverb) returns the effect as it was. *)
Theorem rejected_effect_operations_are_noops :
  (forall (track : Track) (ty : EffectType),
     effect_count track = MAX_EFFECTS_PER_TRACK ->
     audio_engine_add_effect track ty = track) /\
  (forall (track : Track) (effect_index : Z),
     ~ (0 <= effect_index < effect_count track)%Z ->
     audio_engine_remove_effect track effect_index = track /\
     audio_engine_toggle_effect track effect_index = track) /\
  (forall (effect : Effect) (param_index : Z) (value : float),
     ~ (0 <= param_index < param_count (type effect))%Z ->
     audio_engine_set_effect_param effect param_index value = effect).
Proof.
  split; [ | split ].
  - intros track ty Hfull. unfold audio_engine_add_effect.
    rewrite Hfull. reflexivity.
  - intros track i Hout.
    unfold audio_engine_remove_effect, audio_engine_toggle_effect.
    destruct (Z.ltb_spec i 0) as [Hneg | Hpos]; simpl.
    + split; reflexivity.
    + destruct (Z.geb_spec i (effect_count track)) as [Hge | Hlt].
      * split; reflexivity.
      * exfalso. apply Hout. lia.
  - intros effect i value Hout. unfold audio_engine_set_effect_param.
    destruct (type effect) eqn:Hty; simpl in Hout; try reflexivity.
    all: destruct (Z.eqb_spec i 0) as [-> | H0]; [ exfalso; lia | ].
    all: try reflexivity.
    all: destruct (Z.eqb_spec i 1) as [-> | H1]; [ exfalso; lia | ].
    all: try reflexivity.
    all: destruct (Z.eqb_spec i 2) as [-> | H2]; [ exfalso; lia | ].
    all: reflexivity.
Qed.

Lemma rejected_effect_operations_witness :
  audio_engine_add_effect full_track EFFECT_GAIN = full_track /\
  audio_engine_remove_effect full_track 8 = full_track /\
  audio_engine_toggle_effect full_track (-1) = full_track /\
  audio_engine_set_effect_param lowpass_1k 2 0.5 = lowpass_1k.
Proof.
  destruct rejected_effect_operations_are_noops as (Hadd & Hidx & Hpar).
  split; [ apply Hadd; reflexivity | ].
  split; [ apply (Hidx full_track 8%Z); simpl; lia | ].
  split; [ apply (Hidx full_track (-1)%Z); simpl; lia | ].
  apply Hpar. simpl. lia.
Defined.

(** ** Control surface: adding a track *)

Lemma substring_whole (s : string) (n : nat) :
  (String.length s <= n)%nat -> String.substring 0 n s = s.
Proof.
  revert n. induction s as [|c s IH]; intros n Hlen.
  - destruct n; reflexivity.
  - destruct n as [|n]; simpl in *; [ lia | ].
    rewrite IH by lia. reflexivity.
Qed.

(** C5. On an engine whose track count is within [0, 16]: when the count
    is 16, [add_track] returns -1 and the engine is unchanged; otherwise it
    returns the old count as the index, the count grows by one, every
    other slot of the track array is untouched, and the slot at the index
    holds volume 0.75, pan 0, mute, solo and armed false, phase 0, effect
    count 0, playing false, the frequency supplied and the name supplied
    (cut to the 63 characters the name field holds when it is longer). *)
Theorem add_track_spec (e : AudioEngine) (nm : string) (freq : float) :
  engine_wf e ->
  (track_count e = MAX_TRACKS ->
     audio_engine_add_track e nm freq = ((-1)%Z, e)) /\
  (track_count e <> MAX_TRACKS ->
     let index := Z.to_nat (track_count e) in
     let e' := snd (audio_engine_add_track e nm freq) in
     fst (audio_engine_add_track e nm freq) = track_count e /\
     track_count e' = (track_count e + 1)%Z /\
     (forall j : nat, j <> index -> tracks e' !! j = tracks e !! j) /\
     exists track : Track,
       tracks e' !! index = Some track /\
       volume track = 0.75 /\ pan track = 0 /\
       mute track = false /\ solo track = false /\ armed track = false /\
       phase track = 0 /\ effect_count track = 0%Z /\
       playing track = false /\ frequency track = freq /\
       name track = snprintf_name nm /\
       ((String.length nm <= 63)%nat -> name track = nm)).
Proof.
  intros [Hlen Hcount]. unfold audio_engine_add_track. split.
  - intros Hfull. rewrite Hfull. reflexivity.
  - intros Hroom.
    destruct (Z.geb_spec (track_count e) MAX_TRACKS) as [Hge | Hlt];
      [ exfalso; lia | ].
    simpl. split; [ reflexivity | ]. split; [ reflexivity | ]. split.
    + intros j Hj. apply list_lookup_alter_ne. congruence.
    + assert (Hin : (Z.to_nat (track_count e) < length (tracks e))%nat).
      { rewrite Hlen. unfold MAX_TRACKS in *. lia. }
      destruct (lookup_lt_is_Some_2 _ _ Hin) as [old Hold].
      eexists. split.
      * rewrite list_lookup_alter_eq, Hold. reflexivity.
      * simpl. repeat (split; [ reflexivity | ]).
        intros Hshort. apply substring_whole. exact Hshort.
Qed.

Lemma add_track_spec_witness :
  audio_engine_add_track zero_engine "Bass" 110
  = (0%Z, snd (audio_engine_add_track zero_engine "Bass" 110)) /\
  track_count (snd (audio_engine_add_track zero_engine "Bass" 110)) = 1%Z.
Proof.
  assert (Hwf : engine_wf zero_engine).
  { split; [ reflexivity | simpl; unfold MAX_TRACKS; lia ]. }
  assert (Hroom : track_count zero_engine <> MAX_TRACKS).
  { simpl. unfold MAX_TRACKS. lia. }
  destruct (add_track_spec zero_engine "Bass" 110 Hwf) as [_ Hadd].
  destruct (Hadd Hroom) as (Hidx & Hcnt & _).
  split.
  - rewrite <- Hidx at 1. apply surjective_pairing.
  - exact Hcnt.
Defined.

(** ** Control surface: initialisation *)

(** C9, as the code has it. [init] returns true exactly when both calls
    into the sink succeed, and then [initialized] is true and the device
    runs.  When it returns false, the track array and [initialized] are
    as before and the device and the log are released, while
    [master_volume], [track_count] and [playing] have been set to their
    defaults 0.75, 0 and false before the sink was tried. *)
Theorem init_spec (e : AudioEngine) (sink : SinkOutcome) :
  let ok := fst (audio_engine_init e sink) in
  let e' := snd (audio_engine_init e sink) in
  (ok = true <-> device_init_ok sink = true /\ device_start_ok sink = true) /\
  (ok = true -> initialized e' = true /\ device e' = DeviceStarted) /\
  (ok = false ->
     initialized e' = initialized e /\ tracks e' = tracks e /\
     device e' = DeviceUninit /\ log_ready e' = false) /\
  master_volume e' = 0.75 /\ track_count e' = 0%Z /\
  engine_playing e' = false.
Proof.
  unfold audio_engine_init.
  destruct (device_init_ok sink), (device_start_ok sink); simpl;
    repeat split; intros; try discriminate; try reflexivity;
    destruct_and?; try discriminate.
Qed.

Lemma init_spec_witness :
  initialized (snd (audio_engine_init demo_engine (mkSinkOutcome true false)))
  = initialized demo_engine /\
  tracks (snd (audio_engine_init demo_engine (mkSinkOutcome true false)))
  = tracks demo_engine.
Proof.
  destruct (init_spec demo_engine (mkSinkOutcome true false))
    as (_ & _ & Hfail & _).
  destruct (Hfail eq_refl) as (Hini & Htr & _).
  split; [ exact Hini | exact Htr ].
Defined.

(** C9, counterexample to the statement as worded: on a cleared engine a
    failed [init] returns false and yet leaves [master_volume] at 0.75
    where it was 0. *)
Lemma init_failure_mutates_shared_state :
  fst (audio_engine_init zero_engine (mkSinkOutcome false false)) = false /\
  master_volume (snd (audio_engine_init zero_engine
                        (mkSinkOutcome false false)))
  <> master_volume zero_engine.
Proof.
  split; [ reflexivity | ]. simpl. lra.
Qed.

(** ** Callback: the inactive path *)

Lemma memset_zero_whole (buf : list float) :
  memset_zero buf (length buf) = replicate (length buf) 0.
Proof.
  unfold memset_zero. rewrite Nat.min_id, drop_all, app_nil_r. reflexivity.
Qed.

(** C2, as the code has it. When the engine's playing flag is false and
    [frame_count * CHANNELS] fits the 32-bit unsigned product of the
    [memset] size, the callback leaves every one of the [frame_count * 2]
    floats of the output buffer at zero, and touches neither the engine
    nor the filter memory, whatever the tracks hold. *)
Theorem silence_when_stopped (e : AudioEngine) (fs : FilterState)
    (out : list float) (frame_count : Z) :
  engine_playing e = false ->
  (0 <= frame_count * CHANNELS < 2 ^ 32)%Z ->
  length out = Z.to_nat (frame_count * CHANNELS) ->
  let st := audio_callback e fs out frame_count in
  st_out st = replicate (Z.to_nat (frame_count * CHANNELS)) 0 /\
  Forall (fun sample => sample = 0) (st_out st) /\
  st_engine st = e /\ st_filters st = fs.
Proof.
  intros Hstop Hfit Hlen. unfold audio_callback. rewrite Hstop. simpl.
  assert (Hz : zeroed_floats frame_count = length out).
  { unfold zeroed_floats. rewrite Z.mod_small by exact Hfit. congruence. }
  rewrite Hz, memset_zero_whole, Hlen.
  split; [ reflexivity | ]. split; [ | split; reflexivity ].
  apply Forall_replicate. reflexivity.
Qed.

Lemma silence_when_stopped_witness :
  st_out (audio_callback zero_engine zero_filters [1; 2; 3; 4] 2)
  = [0; 0; 0; 0].
Proof.
  apply (silence_when_stopped zero_engine zero_filters [1; 2; 3; 4] 2).
  - reflexivity.
  - unfold CHANNELS. lia.
  - reflexivity.
Defined.

Lemma stopped_callback_size_wraps (e : AudioEngine) (fs : FilterState)
    (out : list float) (frame_count : Z) :
  engine_playing e = false ->
  zeroed_floats frame_count = 0%nat ->
  audio_callback e fs out frame_count = mkMixState e fs out.
Proof.
  intros Hstop Hz. unfold audio_callback. rewrite Hstop, Hz.
  unfold memset_zero. cbn [negb Nat.min replicate app].
  rewrite drop_0. reflexivity.
Qed.

(** C2, counterexample to the statement as worded. At
    [frame_count = 2^31] the 32-bit product [frame_count * CHANNELS] wraps
    to 0: the [memset] of the stopped engine clears no float, and an
    output buffer of [frame_count * 2] floats that held 1 everywhere
    still holds 1 everywhere when the callback returns. *)
Lemma stopped_output_not_cleared :
  engine_playing zero_engine = false /\
  zeroed_floats (2 ^ 31) = 0%nat /\
  length (replicate (Z.to_nat (2 ^ 31 * CHANNELS)) 1)
  = Z.to_nat (2 ^ 31 * CHANNELS) /\
  st_out (audio_callback zero_engine zero_filters
            (replicate (Z.to_nat (2 ^ 31 * CHANNELS)) 1) (2 ^ 31))
  = replicate (Z.to_nat (2 ^ 31 * CHANNELS)) 1 /\
  st_out (audio_callback zero_engine zero_filters
            (replicate (Z.to_nat (2 ^ 31 * CHANNELS)) 1) (2 ^ 31)) !! 0%nat
  = Some 1 /\
  ~ Forall (fun sample => sample = 0)
      (st_out (audio_callback zero_engine zero_filters
                 (replicate (Z.to_nat (2 ^ 31 * CHANNELS)) 1) (2 ^ 31))).
Proof.
  assert (Hz : zeroed_floats (2 ^ 31) = 0%nat) by reflexivity.
  assert (Hpos : (0 < Z.to_nat (2 ^ 31 * CHANNELS))%nat)
    by (unfold CHANNELS; lia).
  generalize dependent (Z.to_nat (2 ^ 31 * CHANNELS)). intros n Hpos.
  rewrite (stopped_callback_size_wraps zero_engine zero_filters
             (replicate n 1) (2 ^ 31) eq_refl Hz).
  cbn [st_out].
  assert (Hfirst : replicate n 1 !! 0%nat = Some 1)
    by (apply lookup_replicate_2; exact Hpos).
  split; [ reflexivity | ]. split; [ exact Hz | ].
  split; [ apply length_replicate | ]. split; [ reflexivity | ].
  split; [ exact Hfirst | ].
  intros Hall. rewrite Forall_lookup in Hall.
  specialize (Hall 0%nat 1 Hfirst). simpl in Hall. lra.
Qed.

(** ** Callback: the oscillator and the panning law *)

Lemma iter_shift {A : Type} (f : A -> A) (n : nat) (x : A) :
  Nat.iter n f (f x) = f (Nat.iter n f x).
Proof.
  induction n as [|n IH]; simpl; [ reflexivity | rewrite IH; reflexivity ].
Qed.

Lemma phase_at_advance (track : Track) (i : nat) :
  phase_at (set_phase track (advance_phase (phase track) (frequency track))) i
  = phase_at track (S i).
Proof.
  unfold phase_at. simpl.
  apply (iter_shift (fun p => advance_phase p (frequency track))).
Qed.

(** The generation loop changes the phase of the track and nothing else. *)
Lemma generate_track (n : nat) (track : Track) :
  fst (fst (generate n track)) = set_phase track (phase_at track n).
Proof.
  revert track. induction n as [|n IH]; intros track.
  - destruct track; reflexivity.
  - simpl.
    specialize (IH (set_phase track
                      (advance_phase (phase track) (frequency track)))).
    destruct (generate n _) as [[track2 l] r]. simpl in *.
    rewrite IH, phase_at_advance. reflexivity.
Qed.

Lemma generate_length (n : nat) (track : Track) :
  length (snd (fst (generate n track))) = n /\
  length (snd (generate n track)) = n.
Proof.
  revert track. induction n as [|n IH]; intros track; simpl.
  - split; reflexivity.
  - specialize (IH (set_phase track
                      (advance_phase (phase track) (frequency track)))).
    destruct (generate n _) as [[track2 l] r]. simpl in *. lia.
Qed.

Lemma generate_samples (n : nat) :
  forall (track : Track) (i : nat), (i < n)%nat ->
  snd (fst (generate n track)) !! i
  = Some (sin (phase_at track i) * volume track * 0.3
          * left_gain (pan track)) /\
  snd (generate n track) !! i
  = Some (sin (phase_at track i) * volume track * 0.3
          * right_gain (pan track)).
Proof.
  induction n as [|n IH]; intros track i Hi; [ lia | ].
  simpl.
  specialize (IH (set_phase track
                    (advance_phase (phase track) (frequency track)))).
  destruct (generate n _) as [[track2 l] r]. simpl in *.
  destruct i as [|i]; simpl.
  - split; reflexivity.
  - destruct (IH i ltac:(lia)) as [Hl Hr].
    rewrite phase_at_advance in Hl, Hr. split; assumption.
Qed.

(** *** The pan angle in binary32 *)














(** One advance keeps the phase within [0, 2 pi] when the per-sample
    increment is between 0 and 2 pi. *)
Lemma advance_phase_range (p f : float) :
  0 <= f <= IZR SAMPLE_RATE -> 0 <= p <= 2 * PI ->
  0 <= advance_phase p f <= 2 * PI.
Proof.
  intros Hf Hp. unfold advance_phase, SAMPLE_RATE in *.
  pose proof PI_RGT_0 as Hpi.
  assert (Hinc : 0 <= 2 * PI * f / 48000 <= 2 * PI).
  { replace (2 * PI * f / 48000) with (2 * PI * (f / 48000)) by field.
    assert (0 <= f / 48000 <= 1) by lra. nra. }
  destruct (Rgt_dec _ _) as [Hgt | Hle]; lra.
Qed.

Lemma phase_at_range (track : Track) (n : nat) :
  0 <= frequency track <= IZR SAMPLE_RATE ->
  0 <= phase track <= 2 * PI ->
  0 <= phase_at track n <= 2 * PI.
Proof.
  intros Hf Hp. unfold phase_at. induction n as [|n IH]; simpl.
  - exact Hp.
  - apply advance_phase_range; assumption.
Qed.

Lemma phase_at_add (track : Track) (n m : nat) :
  phase_at (set_phase track (phase_at track n)) m = phase_at track (n + m).
Proof.
  unfold phase_at. cbn [phase frequency set_phase].
  rewrite (Nat.add_comm n m). symmetry. apply Nat.iter_add.
Qed.

(** The track after a run of periods is the track with its phase advanced
    by the total number of samples. *)
Lemma run_periods_track (periods : list nat) :
  forall track : Track,
  run_periods track periods
  = set_phase track (phase_at track (sum_list periods)).
Proof.
  induction periods as [|n periods IH]; intros track.
  - destruct track; reflexivity.
  - unfold run_periods. cbn [foldl sum_list sum_list_with].
    fold (run_periods (fst (fst (generate n track))) periods).
    rewrite generate_track, IH, phase_at_add. reflexivity.
Qed.

(** C4, as the code has it. For a frequency between 0 and the sample
    rate and a phase that starts within [0, 2 pi], the phase is within
    [0, 2 pi] after every advance and wrap-correction, for any number of
    samples.  That phase is the one the generation loop leaves in the
    track after a period of at most [BUFFER_SIZE] frames, and the one a
    track holds after any run of such periods, whatever their number and
    lengths. *)
Theorem phase_wrap_invariant (track : Track) (n : nat) (periods : list nat) :
  0 <= frequency track <= IZR SAMPLE_RATE ->
  0 <= phase track <= 2 * PI ->
  0 <= phase_at track n <= 2 * PI /\
  ((n <= Z.to_nat BUFFER_SIZE)%nat ->
     phase (fst (fst (generate n track))) = phase_at track n) /\
  (Forall (fun k => (k <= Z.to_nat BUFFER_SIZE)%nat) periods ->
     phase (run_periods track periods)
     = phase_at track (sum_list periods) /\
     0 <= phase (run_periods track periods) <= 2 * PI).
Proof.
  intros Hf Hp. split; [ apply phase_at_range; assumption | ]. split.
  - intros _. rewrite generate_track. reflexivity.
  - intros _. rewrite run_periods_track. cbn [phase set_phase].
    split; [ reflexivity | apply phase_at_range; assumption ].
Qed.

(** At half the sample rate the phase goes 0, pi, 2 pi, pi: two advances
    reach the upper end of the interval and the third one wraps. *)
Lemma phase_wrap_invariant_witness :
  0 <= phase_at nyquist_track 3 <= 2 * PI /\
  phase (run_periods nyquist_track [2; 1]%nat)
  = phase_at nyquist_track (sum_list [2; 1]%nat).
Proof.
  assert (Hf : 0 <= frequency nyquist_track <= IZR SAMPLE_RATE)
    by (simpl; unfold SAMPLE_RATE; lra).
  assert (Hp : 0 <= phase nyquist_track <= 2 * PI)
    by (simpl; pose proof PI_RGT_0; lra).
  assert (Hper : Forall (fun k => (k <= Z.to_nat BUFFER_SIZE)%nat)
                   [2; 1]%nat).
  { unfold BUFFER_SIZE. constructor; [ lia | ].
    constructor; [ lia | constructor ]. }
  destruct (phase_wrap_invariant nyquist_track 3 [2; 1]%nat Hf Hp)
    as (Hrange & _ & Hrun).
  split; [ exact Hrange | exact (proj1 (Hrun Hper)) ].
Defined.

Lemma advance_phase_fast (p : float) :
  0 <= p -> advance_phase p 96000 = p + 2 * PI.
Proof.
  intros Hp. unfold advance_phase, SAMPLE_RATE.
  pose proof PI_RGT_0 as Hpi.
  destruct (Rgt_dec _ _) as [Hgt | Hle]; lra.
Qed.

Lemma advance_phase_nyquist (p : float) :
  p <= PI -> advance_phase p 24000 = p + PI.
Proof.
  intros Hp. unfold advance_phase, SAMPLE_RATE.
  pose proof PI_RGT_0 as Hpi.
  destruct (Rgt_dec _ _) as [Hgt | Hle]; lra.
Qed.

(** C4, counterexample to the statement as worded. An oscillator at
    96000 Hz starts at phase 0, inside [0, 2 pi), and holds phase 4 pi
    after two samples.  An oscillator at 24000 Hz, half the sample rate,
    starts at phase 0 and holds phase 2 pi after two samples: the
    correction subtracts only above 2 pi, so the upper end of the
    interval is reached. *)
Lemma phase_exceeds_two_pi :
  (0 <= phase fast_track < 2 * PI /\
   phase (fst (fst (generate 2 fast_track))) = 4 * PI /\
   ~ (0 <= phase (fst (fst (generate 2 fast_track))) < 2 * PI)) /\
  (0 <= phase nyquist_track < 2 * PI /\
   phase (fst (fst (generate 2 nyquist_track))) = 2 * PI /\
   ~ (0 <= phase (fst (fst (generate 2 nyquist_track))) < 2 * PI)).
Proof.
  pose proof PI_RGT_0 as Hpi.
  assert (Hfast : phase (fst (fst (generate 2 fast_track))) = 4 * PI).
  { rewrite generate_track. unfold phase_at. simpl.
    rewrite (advance_phase_fast 0) by lra.
    rewrite advance_phase_fast by lra. lra. }
  assert (Hnyq : phase (fst (fst (generate 2 nyquist_track))) = 2 * PI).
  { rewrite generate_track. unfold phase_at. simpl.
    rewrite (advance_phase_nyquist 0) by lra.
    rewrite advance_phase_nyquist by lra. lra. }
  split.
  - split; [ simpl; lra | ]. split; [ exact Hfast | ]. rewrite Hfast. lra.
  - split; [ simpl; lra | ]. split; [ exact Hnyq | ]. rewrite Hnyq. lra.
Qed.

(** ** Callback: the effect chain touches one slot of the filter memory *)

Lemma filter_run_length (step : float -> Effect -> float -> float * float)
    (effect : Effect) (buf : list float) (state : float) :
  length (fst (filter_run step effect buf state)) = length buf.
Proof.
  revert state. induction buf as [|x buf IH]; intros state; simpl.
  - reflexivity.
  - destruct (step x effect state) as [y state1].
    specialize (IH state1).
    destruct (filter_run step effect buf state1) as [ys state2].
    simpl in *. lia.
Qed.

Lemma slot_agree_refl (t : nat) (fs : FilterState) : slot_agree t fs fs.
Proof. split; reflexivity. Qed.

Lemma slot_agree_trans (t : nat) (fs1 fs2 fs3 : FilterState) :
  slot_agree t fs1 fs2 -> slot_agree t fs2 fs3 -> slot_agree t fs1 fs3.
Proof. intros [H1 H2] [H3 H4]. split; congruence. Qed.

Lemma slot_agree_sym (t : nat) (fs1 fs2 : FilterState) :
  slot_agree t fs1 fs2 -> slot_agree t fs2 fs1.
Proof. intros [H1 H2]. split; congruence. Qed.

Lemma insert_agree (t : nat) (v : float) (l1 l2 : list float) :
  l1 !! t = l2 !! t -> <[t := v]> l1 !! t = <[t := v]> l2 !! t.
Proof.
  intros Heq. destruct (l1 !! t) as [x|] eqn:H1.
  - rewrite !list_lookup_insert_eq; [ reflexivity | | ];
      eapply lookup_lt_Some; eauto.
  - rewrite !list_insert_ge; [ congruence | | ];
      apply lookup_ge_None; congruence.
Qed.

Section EffectSlots.

Variable step : float -> Effect -> float -> float * float.
Variable effect : Effect.
Variables left right : list float.

Lemma filter_case_lengths (t : nat) (fs : FilterState) :
  length (fst (fst (filter_case step effect t left right fs)))
  = length left /\
  length (snd (fst (filter_case step effect t left right fs)))
  = length right.
Proof.
  unfold filter_case.
  destruct (filter_state_l fs !! t) as [sl|];
    [ destruct (filter_state_r fs !! t) as [sr|] | ];
    try (split; reflexivity).
  pose proof (filter_run_length step effect left sl) as Hl.
  pose proof (filter_run_length step effect right sr) as Hr.
  destruct (filter_run step effect left sl) as [left' sl'].
  destruct (filter_run step effect right sr) as [right' sr'].
  simpl in *. split; assumption.
Qed.

Lemma filter_case_agree (t : nat) (fs1 fs2 : FilterState) :
  slot_agree t fs1 fs2 ->
  fst (filter_case step effect t left right fs1)
  = fst (filter_case step effect t left right fs2) /\
  slot_agree t (snd (filter_case step effect t left right fs1))
               (snd (filter_case step effect t left right fs2)).
Proof.
  intros [Hl Hr]. unfold filter_case. rewrite <- Hl, <- Hr.
  destruct (filter_state_l fs1 !! t) as [sl|] eqn:El;
    [ destruct (filter_state_r fs1 !! t) as [sr|] eqn:Er | ].
  - destruct (filter_run step effect left sl) as [left' sl'].
    destruct (filter_run step effect right sr) as [right' sr'].
    simpl. split; [ reflexivity | ].
    split; simpl; apply insert_agree; congruence.
  - simpl. split; [ reflexivity | split; congruence ].
  - simpl. split; [ reflexivity | split; congruence ].
Qed.

Lemma filter_case_other (u t : nat) (fs : FilterState) :
  t <> u ->
  slot_agree t (snd (filter_case step effect u left right fs)) fs.
Proof.
  intros Hne. unfold filter_case.
  destruct (filter_state_l fs !! u) as [sl|];
    [ destruct (filter_state_r fs !! u) as [sr|] | ];
    try apply slot_agree_refl.
  destruct (filter_run step effect left sl) as [left' sl'].
  destruct (filter_run step effect right sr) as [right' sr'].
  split; simpl; apply list_lookup_insert_ne; congruence.
Qed.

End EffectSlots.

Lemma apply_effect_lengths (effect : Effect) (t : nat)
    (left right : list float) (fs : FilterState) :
  length (fst (fst (apply_effect effect t left right fs))) = length left /\
  length (snd (fst (apply_effect effect t left right fs))) = length right.
Proof.
  unfold apply_effect. destruct (type effect); simpl;
    try (split; reflexivity); try apply filter_case_lengths.
  split; apply length_map.
Qed.

Lemma apply_effect_agree (effect : Effect) (t : nat)
    (left right : list float) (fs1 fs2 : FilterState) :
  slot_agree t fs1 fs2 ->
  fst (apply_effect effect t left right fs1)
  = fst (apply_effect effect t left right fs2) /\
  slot_agree t (snd (apply_effect effect t left right fs1))
               (snd (apply_effect effect t left right fs2)).
Proof.
  intros Hag. unfold apply_effect. destruct (type effect); simpl;
    try (split; [ reflexivity | exact Hag ]);
    apply filter_case_agree; exact Hag.
Qed.

Lemma apply_effect_other (effect : Effect) (u t : nat)
    (left right : list float) (fs : FilterState) :
  t <> u -> slot_agree t (snd (apply_effect effect u left right fs)) fs.
Proof.
  intros Hne. unfold apply_effect. destruct (type effect); simpl;
    try apply slot_agree_refl; apply filter_case_other; exact Hne.
Qed.

Lemma effects_loop_lengths (chain : list Effect) (t : nat) :
  forall (left right : list float) (fs : FilterState),
  length (fst (fst (effects_loop chain t left right fs))) = length left /\
  length (snd (fst (effects_loop chain t left right fs))) = length right.
Proof.
  induction chain as [|effect chain IH]; intros left right fs; simpl.
  - split; reflexivity.
  - pose proof (apply_effect_lengths effect t left right fs) as [Hl Hr].
    destruct (apply_effect effect t left right fs) as [[l1 r1] fs1].
    simpl in *. destruct (IH l1 r1 fs1) as [Hl' Hr']. split; congruence.
Qed.

Lemma effects_loop_agree (chain : list Effect) (t : nat) :
  forall (left right : list float) (fs1 fs2 : FilterState),
  slot_agree t fs1 fs2 ->
  fst (effects_loop chain t left right fs1)
  = fst (effects_loop chain t left right fs2) /\
  slot_agree t (snd (effects_loop chain t left right fs1))
               (snd (effects_loop chain t left right fs2)).
Proof.
  induction chain as [|effect chain IH]; intros left right fs1 fs2 Hag;
    simpl.
  - split; [ reflexivity | exact Hag ].
  - destruct (apply_effect_agree effect t left right fs1 fs2 Hag)
      as [Hbuf Hag1].
    destruct (apply_effect effect t left right fs1) as [[l1 r1] fa].
    destruct (apply_effect effect t left right fs2) as [[l2 r2] fb].
    simpl in *. injection Hbuf as -> ->. apply IH. exact Hag1.
Qed.

Lemma effects_loop_other (chain : list Effect) (u t : nat) :
  t <> u ->
  forall (left right : list float) (fs : FilterState),
  slot_agree t (snd (effects_loop chain u left right fs)) fs.
Proof.
  intros Hne. induction chain as [|effect chain IH]; intros left right fs;
    simpl.
  - apply slot_agree_refl.
  - pose proof (apply_effect_other effect u t left right fs Hne) as H1.
    destruct (apply_effect effect u left right fs) as [[l1 r1] fs1].
    simpl in *. eapply slot_agree_trans; [ apply IH | exact H1 ].
Qed.

Lemma effects_stage_lengths (track : Track) (t : nat)
    (left right : list float) (fs : FilterState) :
  length (fst (fst (effects_stage track t left right fs))) = length left /\
  length (snd (fst (effects_stage track t left right fs))) = length right.
Proof.
  unfold effects_stage, process_track_effects.
  destruct (0 <? _)%Z; [ apply effects_loop_lengths | split; reflexivity ].
Qed.

Lemma effects_stage_agree (track : Track) (t : nat)
    (left right : list float) (fs1 fs2 : FilterState) :
  slot_agree t fs1 fs2 ->
  fst (effects_stage track t left right fs1)
  = fst (effects_stage track t left right fs2) /\
  slot_agree t (snd (effects_stage track t left right fs1))
               (snd (effects_stage track t left right fs2)).
Proof.
  intros Hag. unfold effects_stage, process_track_effects.
  destruct (0 <? _)%Z;
    [ apply effects_loop_agree; exact Hag
    | split; [ reflexivity | exact Hag ] ].
Qed.

Lemma effects_stage_other (track : Track) (u t : nat)
    (left right : list float) (fs : FilterState) :
  t <> u -> slot_agree t (snd (effects_stage track u left right fs)) fs.
Proof.
  intros Hne. unfold effects_stage, process_track_effects.
  destruct (0 <? _)%Z;
    [ apply effects_loop_other; exact Hne | apply slot_agree_refl ].
Qed.

(** ** Callback: what the metering loop computes *)

Lemma running_peak_max (a pk : float) :
  (if Rgt_dec a pk then a else pk) = Rmax pk a.
Proof.
  unfold Rmax. destruct (Rgt_dec a pk), (Rle_dec pk a); lra.
Qed.

Lemma max_abs_nonneg (buf : list float) : 0 <= max_abs buf.
Proof.
  destruct buf as [|x buf]; simpl; [ lra | ].
  eapply Rle_trans; [ apply Rabs_pos | apply Rmax_l ].
Qed.



Lemma sum_squares_nonneg (buf : list float) : 0 <= sum_squares buf.
Proof.
  induction buf as [|x buf IH]; simpl; [ lra | nra ].
Qed.

Lemma sum_squares_le (buf : list float) :
  sum_squares buf <= INR (length buf) * (max_abs buf * max_abs buf).
Proof.
  induction buf as [|x buf IH].
  - simpl. lra.
  - cbn [length sum_squares max_abs foldr]. rewrite S_INR.
    fold (sum_squares buf). fold (max_abs buf).
    pose proof (max_abs_nonneg buf) as Hm.
    pose proof (Rabs_pos x) as Hx.
    pose proof (Rmax_l (Rabs x) (max_abs buf)) as H1.
    pose proof (Rmax_r (Rabs x) (max_abs buf)) as H2.
    pose proof (pos_INR (length buf)) as Hn.
    set (M := Rmax (Rabs x) (max_abs buf)) in *.
    assert (Hxx : x * x = Rabs x * Rabs x).
    { unfold Rabs. destruct (Rcase_abs x); ring. }
    assert (Hsq : max_abs buf * max_abs buf <= M * M) by nra.
    assert (Hxs : Rabs x * Rabs x <= M * M) by nra.
    rewrite Hxx. nra.
Qed.

(** Root mean square against peak, over the reals: for a buffer of
    [n > 0] real numbers the square root of the mean square lies between
    0 and the largest absolute value.  The rounded computation of the
    meters does not inherit the upper bound. *)
Lemma rms_le_peak (buf : list float) (n : float) :
  n = INR (length buf) -> 0 < n ->
  0 <= sqrt (sum_squares buf / n) <= max_abs buf.
Proof.
  intros Hn Hpos. split; [ apply sqrt_pos | ].
  rewrite <- (sqrt_square (max_abs buf)) by apply max_abs_nonneg.
  apply sqrt_le_1_alt.
  pose proof (sum_squares_le buf) as Hle. rewrite <- Hn in Hle.
  apply Rmult_le_reg_r with n; [ exact Hpos | ].
  unfold Rdiv. rewrite Rmult_assoc, Rinv_l by lra. lra.
Qed.


(** ** Callback: one iteration of the track loop *)

Lemma render_track_unfold (frame_count : Z) (t : nat) (track : Track)
    (st : MixState) :
  let g := generate (Z.to_nat frame_count) (set_meters track (0, 0) (0, 0)) in
  let fx :=
    effects_stage (fst (fst g)) t (snd (fst g)) (snd g) (st_filters st) in
  let mm :=
    mix_and_meter 0 (fst (fst fx)) (snd (fst fx)) (st_out st)
                  (peak_level (fst (fst g))) (rms_level (fst (fst g))) in
  render_track frame_count t track st
  = mkMixState
      (set_tracks (st_engine st)
         (<[t := set_meters (fst (fst g)) (snd (fst mm))
                   (sqrt (fst (snd mm) / IZR frame_count),
                    sqrt (snd (snd mm) / IZR frame_count))]>
            (tracks (st_engine st))))
      (snd fx) (fst (fst mm)).
Proof.
  unfold render_track.
  destruct (generate _ _) as [[track2 tl] tr]. simpl.
  destruct (effects_stage _ _ _ _ _) as [[tl' tr'] fs'].
  simpl. destruct (mix_and_meter _ _ _ _ _ _) as [[out' pk] rm].
  reflexivity.
Qed.

Lemma render_track_other (frame_count : Z) (u t : nat) (track : Track)
    (st : MixState) :
  t <> u ->
  tracks (st_engine (render_track frame_count u track st)) !! t
  = tracks (st_engine st) !! t /\
  slot_agree t (st_filters (render_track frame_count u track st))
               (st_filters st).
Proof.
  intros Hne. rewrite render_track_unfold. simpl. split.
  - apply list_lookup_insert_ne. congruence.
  - apply effects_stage_other. exact Hne.
Qed.

Lemma render_track_frame (frame_count : Z) (u : nat) (track : Track)
    (st : MixState) :
  track_count (st_engine (render_track frame_count u track st))
  = track_count (st_engine st).
Proof. rewrite render_track_unfold. reflexivity. Qed.

Lemma mix_track_other (solo_any : bool) (frame_count : Z) (st : MixState)
    (u t : nat) :
  t <> u ->
  tracks (st_engine (mix_track solo_any frame_count st u)) !! t
  = tracks (st_engine st) !! t /\
  slot_agree t (st_filters (mix_track solo_any frame_count st u))
               (st_filters st).
Proof.
  intros Hne. unfold mix_track.
  destruct (tracks (st_engine st) !! u) as [track|];
    [ | split; [ reflexivity | apply slot_agree_refl ] ].
  destruct (mute track || negb (playing track));
    [ split; [ reflexivity | apply slot_agree_refl ] | ].
  destruct (solo_any && negb (solo track));
    [ split; [ reflexivity | apply slot_agree_refl ] | ].
  apply render_track_other. exact Hne.
Qed.

Lemma mix_track_frame (solo_any : bool) (frame_count : Z) (st : MixState)
    (u : nat) :
  track_count (st_engine (mix_track solo_any frame_count st u))
  = track_count (st_engine st).
Proof.
  unfold mix_track.
  destruct (tracks (st_engine st) !! u) as [track|]; [ | reflexivity ].
  destruct (mute track || negb (playing track)); [ reflexivity | ].
  destruct (solo_any && negb (solo track)); [ reflexivity | ].
  apply render_track_frame.
Qed.

(** Iterations over indices other than [t] leave slot [t] of the track
    array and of the filter memory as they were. *)
Lemma foldl_mix_other (solo_any : bool) (frame_count : Z) (t : nat)
    (l : list nat) :
  t ∉ l ->
  forall st : MixState,
  tracks (st_engine (foldl (mix_track solo_any frame_count) st l)) !! t
  = tracks (st_engine st) !! t /\
  slot_agree t (st_filters (foldl (mix_track solo_any frame_count) st l))
               (st_filters st).
Proof.
  induction l as [|u l IH]; intros Hnot st; simpl.
  - split; [ reflexivity | apply slot_agree_refl ].
  - apply not_elem_of_cons in Hnot as [Hne Hnot].
    destruct (IH Hnot (mix_track solo_any frame_count st u)) as [Ht Hs].
    destruct (mix_track_other solo_any frame_count st u t Hne) as [Ht' Hs'].
    split; [ congruence | eapply slot_agree_trans; eassumption ].
Qed.

Lemma master_stage_tracks (st : MixState) (frame_count : Z) :
  tracks (st_engine (master_stage st frame_count)) = tracks (st_engine st)
  /\ st_filters (master_stage st frame_count) = st_filters st.
Proof.
  unfold master_stage.
  destruct (master_loop _ _ _ _ _ _) as [[out' pk] rm].
  split; reflexivity.
Qed.

(** ** Callback: the solo scan and the eligibility test *)

Lemma any_solo_iff (e : AudioEngine) : any_solo e = true <-> some_solo e.
Proof.
  unfold any_solo, some_solo. rewrite existsb_exists. split.
  - intros (u & Hin & Hs). apply in_seq in Hin. unfold track_solo in Hs.
    destruct (tracks e !! u) as [track|] eqn:E; [ | discriminate ].
    exists u, track. split; [ lia | split; [ exact E | exact Hs ] ].
  - intros (u & track & Hu & Ht & Hs). exists u.
    split; [ apply in_seq; lia | ]. unfold track_solo. rewrite Ht. exact Hs.
Qed.

Lemma skipped_iff (e : AudioEngine) (track : Track) :
  skipped (any_solo e) track = true <-> skip_condition e track.
Proof.
  unfold skipped, skip_condition. rewrite <- any_solo_iff.
  destruct (mute track), (playing track), (any_solo e), (solo track);
    simpl; split; intros H; try reflexivity; try discriminate;
    intuition discriminate.
Qed.

Lemma not_skipped_iff (e : AudioEngine) (track : Track) :
  skipped (any_solo e) track = false <-> ~ skip_condition e track.
Proof.
  rewrite <- skipped_iff. destruct (skipped (any_solo e) track); split;
    intros H; try reflexivity; try discriminate; try congruence.
Qed.

Lemma mix_track_skip (e : AudioEngine) (frame_count : Z) (st : MixState)
    (t : nat) (track : Track) :
  tracks (st_engine st) !! t = Some track ->
  skipped (any_solo e) track = true ->
  mix_track (any_solo e) frame_count st t = st.
Proof.
  intros Ht Hskip. unfold mix_track. rewrite Ht. unfold skipped in Hskip.
  destruct (mute track || negb (playing track)); [ reflexivity | ].
  destruct (any_solo e && negb (solo track)); [ reflexivity | discriminate ].
Qed.

Lemma mix_track_render (e : AudioEngine) (frame_count : Z) (st : MixState)
    (t : nat) (track : Track) :
  tracks (st_engine st) !! t = Some track ->
  skipped (any_solo e) track = false ->
  mix_track (any_solo e) frame_count st t
  = render_track frame_count t track st.
Proof.
  intros Ht Hskip. unfold mix_track. rewrite Ht. unfold skipped in Hskip.
  destruct (mute track || negb (playing track)); [ discriminate | ].
  destruct (any_solo e && negb (solo track)); [ discriminate | reflexivity ].
Qed.

(** The loop with its two [continue] tests is the plain loop body run over
    the indices that pass the tests. *)
Lemma foldl_mix_included (e : AudioEngine) (frame_count : Z)
    (l : list nat) :
  NoDup l ->
  forall st : MixState,
  (forall t, t ∈ l -> tracks (st_engine st) !! t = tracks e !! t) ->
  foldl (mix_track (any_solo e) frame_count) st l
  = foldl (render_at frame_count) st
          (filter (fun t => rendered e t = true) l).
Proof.
  induction l as [|t l IH]; intros Hnd st Hsame; [ reflexivity | ].
  apply NoDup_cons in Hnd as [Hnot Hnd].
  assert (Ht : tracks (st_engine st) !! t = tracks e !! t)
    by (apply Hsame; left).
  destruct (rendered e t) eqn:Hr.
  - rewrite filter_cons_True by exact Hr. simpl.
    assert (Hstep : mix_track (any_solo e) frame_count st t
                    = render_at frame_count st t).
    { unfold rendered in Hr. unfold render_at.
      destruct (tracks e !! t) as [track|] eqn:Et; [ | discriminate ].
      rewrite Ht. apply mix_track_render; [ exact Ht | ].
      destruct (skipped (any_solo e) track); [ discriminate | reflexivity ]. }
    rewrite <- Hstep. apply IH; [ exact Hnd | ].
    intros t' Ht'.
    assert (Hne : t' <> t) by (intros ->; contradiction).
    rewrite (proj1 (mix_track_other _ frame_count st t t' Hne)).
    apply Hsame. right. exact Ht'.
  - rewrite filter_cons_False by (rewrite Hr; discriminate). simpl.
    assert (Hstep : mix_track (any_solo e) frame_count st t = st).
    { unfold rendered in Hr.
      destruct (tracks e !! t) as [track|] eqn:Et.
      - apply (mix_track_skip e frame_count st t track); [ exact Ht | ].
        destruct (skipped (any_solo e) track);
          [ reflexivity | discriminate ].
      - unfold mix_track. rewrite Ht. reflexivity. }
    rewrite Hstep. apply IH; [ exact Hnd | ].
    intros t' Ht'. apply Hsame. right. exact Ht'.
Qed.

Lemma callback_renders_included (e : AudioEngine) (fs : FilterState)
    (out : list float) (frame_count : Z) :
  engine_playing e = true ->
  audio_callback e fs out frame_count
  = master_stage
      (foldl (render_at frame_count) (loop_entry e fs out frame_count)
             (included_tracks e))
      frame_count.
Proof.
  intros Hplay. unfold audio_callback. rewrite Hplay. simpl.
  unfold mix_tracks, included_tracks. simpl.
  change (any_solo (set_master_meters e (0, 0) (0, 0))) with (any_solo e).
  rewrite (foldl_mix_included e frame_count); [ reflexivity | | ].
  - apply NoDup_seq.
  - intros t _. reflexivity.
Qed.

Lemma included_iff (e : AudioEngine) (t : nat) (track : Track) :
  (t < Z.to_nat (track_count e))%nat ->
  tracks e !! t = Some track ->
  (t ∈ included_tracks e <-> ~ skip_condition e track) /\
  (t ∉ included_tracks e <-> skip_condition e track).
Proof.
  intros Hlt Ht.
  assert (Hin : t ∈ included_tracks e <-> skipped (any_solo e) track = false).
  { unfold included_tracks. rewrite list_elem_of_filter, elem_of_seq.
    unfold rendered. rewrite Ht.
    destruct (skipped (any_solo e) track); simpl; split;
      intros H; try discriminate; try (destruct H; discriminate);
      try reflexivity.
    split; [ reflexivity | lia ]. }
  split.
  - rewrite Hin. apply not_skipped_iff.
  - rewrite Hin, <- skipped_iff.
    destruct (skipped (any_solo e) track); split; intros H;
      try reflexivity; try discriminate; try congruence.
Qed.

(** ** Callback: the slot of one track across the whole loop *)

(** When the loop reaches index [t], slot [t] of the track array and of
    the filter memory are as at loop entry; what iteration [t] leaves in
    the slot is what the loop ends with. *)
Lemma mix_tracks_slot (solo_any : bool) (frame_count : Z) (st : MixState)
    (t : nat) :
  (t < Z.to_nat (track_count (st_engine st)))%nat ->
  exists st_pre : MixState,
    tracks (st_engine st_pre) !! t = tracks (st_engine st) !! t /\
    slot_agree t (st_filters st_pre) (st_filters st) /\
    tracks (st_engine (mix_tracks solo_any frame_count st)) !! t
    = tracks (st_engine (mix_track solo_any frame_count st_pre t)) !! t /\
    slot_agree t (st_filters (mix_tracks solo_any frame_count st))
                 (st_filters (mix_track solo_any frame_count st_pre t)).
Proof.
  intros Hlt. unfold mix_tracks.
  set (N := Z.to_nat (track_count (st_engine st))) in *.
  replace N with (t + S (N - S t))%nat by lia.
  rewrite seq_app, foldl_app. simpl.
  set (st_pre := foldl (mix_track solo_any frame_count) st (seq 0 t)).
  exists st_pre.
  assert (Hpre : t ∉ seq 0 t) by (rewrite elem_of_seq; lia).
  assert (Hsuf : t ∉ seq (S t) (N - S t)) by (rewrite elem_of_seq; lia).
  destruct (foldl_mix_other solo_any frame_count t _ Hpre st) as [H1 H2].
  destruct (foldl_mix_other solo_any frame_count t _ Hsuf
              (mix_track solo_any frame_count st_pre t)) as [H3 H4].
  repeat split; try assumption; apply H2 || apply H4.
Qed.

Lemma skipped_slot_untouched (e : AudioEngine) (fs : FilterState)
    (out : list float) (frame_count : Z) (t : nat) (track : Track) :
  engine_playing e = true ->
  (t < Z.to_nat (track_count e))%nat ->
  tracks e !! t = Some track ->
  skipped (any_solo e) track = true ->
  tracks (st_engine (audio_callback e fs out frame_count)) !! t = Some track
  /\ slot_agree t (st_filters (audio_callback e fs out frame_count)) fs.
Proof.
  intros Hplay Hlt Ht Hskip. unfold audio_callback. rewrite Hplay. simpl.
  change (any_solo (set_master_meters e (0, 0) (0, 0))) with (any_solo e).
  destruct (master_stage_tracks
              (mix_tracks (any_solo e) frame_count
                 (loop_entry e fs out frame_count)) frame_count)
    as [Htr Hfs].
  unfold loop_entry in *. rewrite Htr, Hfs.
  destruct (mix_tracks_slot (any_solo e) frame_count
              (mkMixState (set_master_meters e (0, 0) (0, 0)) fs
                 (memset_zero out (zeroed_floats frame_count))) t Hlt)
    as (st_pre & Hpre & Hag & Hfin & Hfag).
  simpl in Hpre, Hag. rewrite Ht in Hpre.
  rewrite (mix_track_skip e frame_count st_pre t track Hpre Hskip)
    in Hfin, Hfag.
  split; [ congruence | eapply slot_agree_trans; eassumption ].
Qed.

(** ** Callback: the meters of a rendered track *)

Lemma track_buffers_unfold (frame_count : Z) (t : nat) (track : Track)
    (fs : FilterState) :
  let g := generate (Z.to_nat frame_count) (set_meters track (0, 0) (0, 0)) in
  track_buffers frame_count t track fs
  = fst (effects_stage (fst (fst g)) t (snd (fst g)) (snd g) fs).
Proof.
  unfold track_buffers. destruct (generate _ _) as [[track2 tl] tr].
  reflexivity.
Qed.

Lemma track_buffers_length (frame_count : Z) (t : nat) (track : Track)
    (fs : FilterState) :
  length (fst (track_buffers frame_count t track fs)) = Z.to_nat frame_count
  /\
  length (snd (track_buffers frame_count t track fs)) = Z.to_nat frame_count.
Proof.
  rewrite track_buffers_unfold.
  destruct (generate_length (Z.to_nat frame_count)
              (set_meters track (0, 0) (0, 0))) as [Hl Hr].
  destruct (effects_stage_lengths
              (fst (fst (generate (Z.to_nat frame_count)
                           (set_meters track (0, 0) (0, 0))))) t
              (snd (fst (generate (Z.to_nat frame_count)
                           (set_meters track (0, 0) (0, 0)))))
              (snd (generate (Z.to_nat frame_count)
                      (set_meters track (0, 0) (0, 0)))) fs) as [Hl' Hr'].
  split; congruence.
Qed.


(** ** Callback: eligibility, skipped tracks and meters *)

(** C10. With the engine playing, a track the test skips (muted, not
    playing, or not soloed while another track is) keeps its
    [peak_level] and [rms_level] through the callback: the slot holds the
    very track it held before. *)
Theorem skipped_track_keeps_meters (e : AudioEngine) (fs : FilterState)
    (out : list float) (frame_count : Z) (t : nat) (track : Track) :
  engine_playing e = true ->
  engine_wf e ->
  (0 <= frame_count <= BUFFER_SIZE)%Z ->
  (t < Z.to_nat (track_count e))%nat ->
  tracks e !! t = Some track ->
  skip_condition e track ->
  exists track' : Track,
    tracks (st_engine (audio_callback e fs out frame_count)) !! t
    = Some track' /\
    peak_level track' = peak_level track /\
    rms_level track' = rms_level track /\
    track' = track.
Proof.
  intros Hplay _ _ Hlt Ht Hskip. apply skipped_iff in Hskip.
  destruct (skipped_slot_untouched e fs out frame_count t track
              Hplay Hlt Ht Hskip) as [Hfin _].
  exists track. repeat split; try reflexivity. exact Hfin.
Qed.


(** ** The statements at work on the demo session *)

Lemma demo_engine_wf : engine_wf demo_engine.
Proof. split; [ reflexivity | simpl; unfold MAX_TRACKS; lia ]. Qed.

Lemma demo_some_solo : some_solo demo_engine.
Proof.
  exists 1%nat, (demo_track "Lead" 440 false true true).
  split; [ simpl; lia | split; reflexivity ].
Qed.

Lemma skipped_track_keeps_meters_witness :
  tracks (st_engine (audio_callback demo_engine zero_filters [0; 0; 0; 0] 2))
    !! 0%nat
  = Some (demo_track "Bass" 110 false false true).
Proof.
  assert (Hfc : (0 <= 2 <= BUFFER_SIZE)%Z) by (unfold BUFFER_SIZE; lia).
  assert (Hlt : (0 < Z.to_nat (track_count demo_engine))%nat)
    by (simpl; lia).
  assert (Hskip : skip_condition demo_engine
                    (demo_track "Bass" 110 false false true)).
  { right. right. split; [ exact demo_some_solo | reflexivity ]. }
  destruct (skipped_track_keeps_meters demo_engine zero_filters [0; 0; 0; 0]
              2 0 (demo_track "Bass" 110 false false true)
              eq_refl demo_engine_wf Hfc Hlt eq_refl Hskip)
    as (track' & Hslot & _ & _ & ->).
  exact Hslot.
Defined.

Lemma filtered_engine_wf : engine_wf filtered_engine.
Proof. split; [ reflexivity | simpl; unfold MAX_TRACKS; lia ]. Qed.

Lemma filtered_lead_passes : ~ skip_condition filtered_engine filtered_lead.
Proof. intros [H | [H | [_ H]]]; discriminate. Qed.

Lemma lowpass_1k_defined : division_defined lowpass_1k.
Proof. intros _. cbv [cutoff lowpass_1k word0]. lra. Qed.

Lemma filtered_lead_defined : chain_defined filtered_lead.
Proof. constructor; [ exact lowpass_1k_defined | constructor ]. Qed.



(** ** Concrete runs *)

Example demo_any_solo : any_solo demo_engine = true.
Proof. reflexivity. Qed.

Example demo_included_tracks : included_tracks demo_engine = [1%nat].
Proof. reflexivity. Qed.

Example demo_add_fourth_track :
  fst (audio_engine_add_track demo_engine "Track 4" 261) = 3%Z /\
  name <$> tracks (snd (audio_engine_add_track demo_engine "Track 4" 261))
         !! 3%nat = Some "Track 4"%string.
Proof. split; reflexivity. Qed.

Example full_chain_rejects_add :
  effect_count (audio_engine_add_effect full_track EFFECT_REVERB) = 8%Z.
Proof. reflexivity. Qed.

Example add_effect_defaults :
  effects (audio_engine_add_effect zero_track EFFECT_LOWPASS) !! 0%nat
  = Some (mkEffect EFFECT_LOWPASS true 1000 1 0).
Proof. reflexivity. Qed.

Example remove_effect_shifts_down :
  let chain :=
    mkEffect EFFECT_GAIN true 1 0 0 :: lowpass_1k ::
    mkEffect EFFECT_HIGHPASS true 1000 1 0 :: replicate 5 zero_effect in
  let track :=
    mkTrack "Bass" 0.75 0 false false false 110 0 false chain 3%Z
            (0, 0) (0, 0) in
  effect_count (audio_engine_remove_effect track 0) = 2%Z /\
  take 2 (effects (audio_engine_remove_effect track 0))
  = [lowpass_1k; mkEffect EFFECT_HIGHPASS true 1000 1 0].
Proof. split; reflexivity. Qed.

Example toggle_effect_flips :
  enabled <$> effects (audio_engine_toggle_effect full_track 2) !! 2%nat
  = Some false.
Proof. reflexivity. Qed.

Example init_success_and_shutdown :
  fst (audio_engine_init zero_engine (mkSinkOutcome true true)) = true /\
  initialized (audio_engine_shutdown
                 (snd (audio_engine_init zero_engine
                         (mkSinkOutcome true true)))) = false.
Proof. split; reflexivity. Qed.

Example gain_effect_disabled_is_identity (sample g : float) :
  process_gain_effect sample (mkEffect EFFECT_GAIN false g 0 0) = sample.
Proof. reflexivity. Qed.

(** ** Control surface: the effect chain of a track *)

Lemma shift_down_length (steps : nat) :
  forall (l : list Effect) (i : nat),
  length (shift_down l i steps) = length l.
Proof.
  induction steps as [|steps IH]; intros l i; simpl; [ reflexivity | ].
  rewrite IH. destruct (l !! S i); [ apply length_insert | reflexivity ].
Qed.

Lemma shift_down_lookup (steps : nat) :
  forall (l : list Effect) (i j : nat),
  (i + steps < length l)%nat ->
  shift_down l i steps !! j
  = if decide (i <= j < i + steps)%nat then l !! S j else l !! j.
Proof.
  induction steps as [|steps IH]; intros l i j Hlen; simpl.
  - destruct (decide _) as [H|H]; [ lia | reflexivity ].
  - destruct (lookup_lt_is_Some_2 l (S i) ltac:(lia)) as [e He].
    rewrite He, IH by (rewrite length_insert; lia).
    destruct (decide (S i <= j < S i + steps)%nat) as [H1|H1];
      destruct (decide (i <= j < i + S steps)%nat) as [H2|H2];
      try lia.
    + apply list_lookup_insert_ne. lia.
    + assert (j = i) by lia. subst j.
      rewrite list_lookup_insert_eq by lia. symmetry. exact He.
    + apply list_lookup_insert_ne. lia.
Qed.

Lemma alter_twice_id {A : Type} (f : A -> A) (l : list A) (i : nat) :
  (forall x, f (f x) = x) -> alter f i (alter f i l) = l.
Proof.
  intros Hf. revert i. induction l as [|x l IH]; intros [|i]; simpl;
    try reflexivity.
  - rewrite Hf. reflexivity.
  - f_equal. apply IH.
Qed.

(** X1. On a well-formed track with room in its chain, [add_effect]
    raises [effect_count] by one, writes to the slot at the old count an
    enabled effect of the requested kind with that kind's default
    parameters, and leaves every other slot and every other field of the
    track as it was. *)
Theorem add_effect_appends (track : Track) (ty : EffectType) :
  track_wf track ->
  (effect_count track < MAX_EFFECTS_PER_TRACK)%Z ->
  let track' := audio_engine_add_effect track ty in
  let slot := Z.to_nat (effect_count track) in
  effect_count track' = (effect_count track + 1)%Z /\
  (forall j : nat, j <> slot -> effects track' !! j = effects track !! j) /\
  (exists effect : Effect,
     effects track' !! slot = Some effect /\
     type effect = ty /\ enabled effect = true /\
     match ty with
     | EFFECT_GAIN => gain effect = 1
     | EFFECT_LOWPASS | EFFECT_HIGHPASS =>
         cutoff effect = 1000 /\ resonance effect = 1
     | EFFECT_DELAY =>
         word0 effect = 250 /\ word1 effect = 0.3 /\ word2 effect = 0.5
     | EFFECT_REVERB =>
         word0 effect = 0.5 /\ word1 effect = 0.5 /\ word2 effect = 0.3
     | EFFECT_NONE => True
     end) /\
  name track' = name track /\ volume track' = volume track /\
  pan track' = pan track /\ mute track' = mute track /\
  solo track' = solo track /\ armed track' = armed track /\
  frequency track' = frequency track /\ playing track' = playing track /\
  phase track' = phase track /\ peak_level track' = peak_level track /\
  rms_level track' = rms_level track.
Proof.
  intros [Hlen Hcnt] Hroom. unfold audio_engine_add_effect.
  destruct (Z.geb_spec (effect_count track) MAX_EFFECTS_PER_TRACK)
    as [Hge | Hlt]; [ lia | ].
  cbn zeta. simpl.
  split; [ reflexivity | ]. split.
  - intros j Hj. apply list_lookup_alter_ne. congruence.
  - split.
    + assert (Hin : (Z.to_nat (effect_count track) < length (effects track))%nat).
      { rewrite Hlen. unfold MAX_EFFECTS_PER_TRACK in *. lia. }
      destruct (lookup_lt_is_Some_2 _ _ Hin) as [old Hold].
      eexists. split.
      * rewrite list_lookup_alter_eq, Hold. reflexivity.
      * destruct ty; simpl; unfold gain, cutoff, resonance; simpl;
          repeat split; reflexivity.
    + repeat split; reflexivity.
Qed.

Lemma add_effect_appends_witness :
  effect_count (audio_engine_add_effect zero_track EFFECT_GAIN) = 1%Z.
Proof.
  apply (add_effect_appends zero_track EFFECT_GAIN).
  - split; [ reflexivity | simpl; unfold MAX_EFFECTS_PER_TRACK; lia ].
  - simpl. unfold MAX_EFFECTS_PER_TRACK. lia.
Defined.

(** X2. On a well-formed track, [remove_effect] with an index inside
    [0, effect_count) lowers [effect_count] by one, keeps the slots below
    the index, moves each slot between the index and the new count down
    from the slot above it, and keeps the slots from the new count on (so
    the old last effect stays behind as a stale copy outside the chain). *)
Theorem remove_effect_shifts (track : Track) (effect_index : Z) :
  track_wf track ->
  (0 <= effect_index < effect_count track)%Z ->
  let track' := audio_engine_remove_effect track effect_index in
  let i := Z.to_nat effect_index in
  let last := Z.to_nat (effect_count track - 1) in
  effect_count track' = (effect_count track - 1)%Z /\
  length (effects track') = length (effects track) /\
  forall j : nat,
    ((j < i)%nat -> effects track' !! j = effects track !! j) /\
    ((i <= j < last)%nat -> effects track' !! j = effects track !! S j) /\
    ((last <= j)%nat -> effects track' !! j = effects track !! j).
Proof.
  intros [Hlen Hcnt] Hidx. unfold audio_engine_remove_effect.
  destruct (Z.ltb_spec effect_index 0) as [Hneg | Hpos]; [ lia | ].
  destruct (Z.geb_spec effect_index (effect_count track)) as [Hge | Hlt];
    [ lia | ].
  cbn zeta. cbn [orb effect_count effects set_effects].
  split; [ reflexivity | ]. split; [ apply shift_down_length | ].
  intros j.
  assert (Hfit : (Z.to_nat effect_index
                  + Z.to_nat (effect_count track - 1 - effect_index)
                  < length (effects track))%nat).
  { rewrite Hlen. unfold MAX_EFFECTS_PER_TRACK in *. lia. }
  rewrite (shift_down_lookup _ _ _ j Hfit).
  destruct (decide _) as [H|H]; repeat split; intros Hj;
    try reflexivity; lia.
Qed.

Lemma remove_effect_shifts_witness :
  effect_count (audio_engine_remove_effect full_track 3) = 7%Z.
Proof.
  apply (remove_effect_shifts full_track 3).
  - split; [ reflexivity | simpl; unfold MAX_EFFECTS_PER_TRACK; lia ].
  - simpl. lia.
Defined.

(** X3. [toggle_effect] is an involution: toggling the same index twice
    gives the track back, for every track and every index; one toggle
    with an index inside [0, effect_count) flips the enabled flag of that
    slot and changes nothing else of the effect. *)
Theorem toggle_effect_involution (track : Track) (effect_index : Z) :
  audio_engine_toggle_effect
    (audio_engine_toggle_effect track effect_index) effect_index = track /\
  forall effect : Effect,
    (0 <= effect_index < effect_count track)%Z ->
    effects track !! Z.to_nat effect_index = Some effect ->
    effects (audio_engine_toggle_effect track effect_index)
      !! Z.to_nat effect_index
    = Some (set_enabled effect (negb (enabled effect))).
Proof.
  unfold audio_engine_toggle_effect. split.
  - destruct ((effect_index <? 0)%Z || (effect_index >=? effect_count track)%Z)
      eqn:Hout.
    + rewrite Hout. reflexivity.
    + cbn [effect_count effects set_effects]. rewrite Hout.
      cbn [effect_count effects set_effects].
      rewrite alter_twice_id.
      * destruct track; reflexivity.
      * intros [ty en w0 w1 w2]. unfold set_enabled. simpl.
        rewrite negb_involutive. reflexivity.
  - intros effect Hidx Hslot.
    destruct (Z.ltb_spec effect_index 0) as [Hneg | Hpos]; [ lia | ].
    destruct (Z.geb_spec effect_index (effect_count track)) as [Hge | Hlt];
      [ lia | ].
    cbn [orb effects set_effects].
    rewrite list_lookup_alter_eq, Hslot. reflexivity.
Qed.

Lemma toggle_effect_involution_witness :
  effects (audio_engine_toggle_effect full_track 2) !! 2%nat
  = Some (set_enabled lowpass_1k (negb (enabled lowpass_1k))).
Proof.
  destruct (toggle_effect_involution full_track 2) as [_ Hflip].
  apply (Hflip lowpass_1k); [ simpl; lia | reflexivity ].
Defined.

(** X4. [set_effect_param] never changes the kind or the enabled flag of
    an effect.  With an index the kind declares, the parameter read back
    is the value written and the other parameter words are untouched. *)
Theorem set_effect_param_round_trip (effect : Effect) (param_index : Z)
    (value : float) :
  type (audio_engine_set_effect_param effect param_index value) = type effect
  /\
  enabled (audio_engine_set_effect_param effect param_index value)
  = enabled effect /\
  ((0 <= param_index < param_count (type effect))%Z ->
   effect_param (audio_engine_set_effect_param effect param_index value)
                param_index = value /\
   forall j : Z, (0 <= j < 3)%Z -> j <> param_index ->
     effect_param (audio_engine_set_effect_param effect param_index value) j
     = effect_param effect j).
Proof.
  unfold audio_engine_set_effect_param, effect_param.
  destruct effect as [ty en w0 w1 w2]. simpl.
  destruct ty; simpl;
    destruct (Z.eqb_spec param_index 0) as [-> | H0]; simpl;
    try destruct (Z.eqb_spec param_index 1) as [-> | H1]; simpl;
    try destruct (Z.eqb_spec param_index 2) as [-> | H2]; simpl;
    (split; [ reflexivity | ]); (split; [ reflexivity | ]);
    intros Hidx; try lia;
    (split; [ reflexivity | ]);
    intros j Hj Hne;
    destruct (Z.eqb_spec j 0); try lia; try reflexivity;
    destruct (Z.eqb_spec j 1); try lia; try reflexivity.
Qed.

Lemma set_effect_param_round_trip_witness :
  effect_param (audio_engine_set_effect_param lowpass_1k 1 0.5) 1 = 0.5.
Proof.
  destruct (set_effect_param_round_trip lowpass_1k 1 0.5) as (_ & _ & Hset).
  apply Hset. simpl. lia.
Defined.

Lemma track_wf_set_effects (track : Track) (l : list Effect) (n : Z) :
  length l = length (effects track) ->
  (0 <= n <= MAX_EFFECTS_PER_TRACK)%Z ->
  track_wf track -> track_wf (set_effects track l n).
Proof.
  intros Hl Hn [Hlen Hcnt]. split; simpl; [ congruence | exact Hn ].
Qed.

Lemma add_effect_wf (track : Track) (ty : EffectType) :
  track_wf track -> track_wf (audio_engine_add_effect track ty).
Proof.
  intros Hwf. unfold audio_engine_add_effect.
  destruct (Z.geb_spec (effect_count track) MAX_EFFECTS_PER_TRACK);
    [ exact Hwf | ].
  apply track_wf_set_effects; [ apply length_alter | | exact Hwf ].
  destruct Hwf as [_ Hcnt]. lia.
Qed.

(** X5. The chain invariant, array of 8 slots and
    [0 <= effect_count <= 8], is kept by [add_effect], [remove_effect]
    and [toggle_effect], whatever their arguments. *)
Theorem effect_operations_keep_track_wf (track : Track) :
  track_wf track ->
  (forall ty, track_wf (audio_engine_add_effect track ty)) /\
  (forall i, track_wf (audio_engine_remove_effect track i)) /\
  (forall i, track_wf (audio_engine_toggle_effect track i)).
Proof.
  intros Hwf. split; [ | split ].
  - intros ty. apply add_effect_wf. exact Hwf.
  - intros i. unfold audio_engine_remove_effect.
    destruct (Z.ltb_spec i 0); [ exact Hwf | ].
    destruct (Z.geb_spec i (effect_count track)); [ exact Hwf | ].
    simpl. apply track_wf_set_effects;
      [ apply shift_down_length | | exact Hwf ].
    destruct Hwf as [_ Hcnt]. lia.
  - intros i. unfold audio_engine_toggle_effect.
    destruct (_ || _); [ exact Hwf | ].
    apply track_wf_set_effects; [ apply length_alter | | exact Hwf ].
    destruct Hwf as [_ Hcnt]. exact Hcnt.
Qed.

Lemma effect_operations_keep_track_wf_witness :
  track_wf (audio_engine_remove_effect full_track 0).
Proof.
  apply (effect_operations_keep_track_wf full_track).
  split; [ reflexivity | simpl; unfold MAX_EFFECTS_PER_TRACK; lia ].
Defined.

(** X6. Adding an effect to a chain with room and then removing the
    effect at the index it was given restores the chain the effect loop
    runs: the count and the first [effect_count] entries are those of the
    track before. *)
Theorem add_then_remove_effect (track : Track) (ty : EffectType) :
  track_wf track ->
  (effect_count track < MAX_EFFECTS_PER_TRACK)%Z ->
  let track' :=
    audio_engine_remove_effect (audio_engine_add_effect track ty)
                               (effect_count track) in
  effect_count track' = effect_count track /\
  live_chain track' = live_chain track.
Proof.
  intros [Hlen Hcnt] Hroom.
  unfold audio_engine_remove_effect, audio_engine_add_effect.
  destruct (Z.geb_spec (effect_count track) MAX_EFFECTS_PER_TRACK)
    as [Hge | Hlt]; [ lia | ].
  cbn [effect_count effects set_effects].
  destruct (Z.ltb_spec (effect_count track) 0) as [Hneg | Hpos]; [ lia | ].
  destruct (Z.geb_spec (effect_count track) (effect_count track + 1))
    as [Hge | Hlt']; [ lia | ].
  cbn zeta. cbn [orb effect_count effects set_effects]. unfold live_chain.
  cbn [effect_count effects set_effects].
  replace (effect_count track + 1 - 1 - effect_count track)%Z with 0%Z
    by lia.
  replace (effect_count track + 1 - 1)%Z with (effect_count track) by lia.
  simpl shift_down. split; [ reflexivity | ].
  apply take_alter_ge. lia.
Qed.

Lemma add_then_remove_effect_witness :
  effect_count (audio_engine_remove_effect
                  (audio_engine_add_effect zero_track EFFECT_DELAY) 0) = 0%Z.
Proof.
  apply (add_then_remove_effect zero_track EFFECT_DELAY).
  - split; [ reflexivity | simpl; unfold MAX_EFFECTS_PER_TRACK; lia ].
  - simpl. unfold MAX_EFFECTS_PER_TRACK. lia.
Defined.

(** ** Control surface: tracks are only appended *)

Lemma add_track_wf (e : AudioEngine) (nm : string) (freq : float) :
  engine_wf e -> tracks_wf e ->
  engine_wf (snd (audio_engine_add_track e nm freq)) /\
  tracks_wf (snd (audio_engine_add_track e nm freq)).
Proof.
  intros [Hlen Hcnt] Htr. unfold audio_engine_add_track.
  destruct (Z.geb_spec (track_count e) MAX_TRACKS) as [Hge | Hlt]; simpl.
  - split; [ split; assumption | exact Htr ].
  - split.
    + split; simpl; [ rewrite length_alter; exact Hlen | lia ].
    + unfold tracks_wf in *. simpl. apply Forall_alter; [ exact Htr | ].
      intros old _ [Hl Hc]. split; simpl;
        [ exact Hl | unfold MAX_EFFECTS_PER_TRACK; lia ].
Qed.

Lemma add_track_below (e : AudioEngine) (nm : string) (freq : float)
    (j : nat) :
  (0 <= track_count e)%Z -> (j < Z.to_nat (track_count e))%nat ->
  tracks (snd (audio_engine_add_track e nm freq)) !! j = tracks e !! j.
Proof.
  intros Hpos Hj. unfold audio_engine_add_track.
  destruct (track_count e >=? MAX_TRACKS)%Z; simpl; [ reflexivity | ].
  apply list_lookup_alter_ne. lia.
Qed.

Lemma add_track_count (e : AudioEngine) (nm : string) (freq : float) :
  track_count (snd (audio_engine_add_track e nm freq))
  = if (track_count e >=? MAX_TRACKS)%Z then track_count e
    else (track_count e + 1)%Z.
Proof.
  unfold audio_engine_add_track.
  destruct (track_count e >=? MAX_TRACKS)%Z; reflexivity.
Qed.

Lemma add_track_keeps_invariants_parts (e : AudioEngine) (nm : string)
    (freq : float) :
  engine_wf e -> tracks_wf e ->
  engine_wf (snd (audio_engine_add_track e nm freq)) /\
  tracks_wf (snd (audio_engine_add_track e nm freq)) /\
  (track_count e <= track_count (snd (audio_engine_add_track e nm freq))
   <= track_count e + 1)%Z /\
  master_volume (snd (audio_engine_add_track e nm freq)) = master_volume e /\
  initialized (snd (audio_engine_add_track e nm freq)) = initialized e.
Proof.
  intros Hwf Htr. destruct (add_track_wf e nm freq Hwf Htr) as [H1 H2].
  split; [ exact H1 | ]. split; [ exact H2 | ].
  rewrite add_track_count. unfold audio_engine_add_track.
  destruct (track_count e >=? MAX_TRACKS)%Z; simpl;
    repeat split; try reflexivity; lia.
Qed.

(** X7. On a well-formed engine [add_track] keeps the engine invariants
    (16 slots, [0 <= track_count <= 16], every slot a well-formed track),
    returns either -1 or an index in [0, 16) that is the old count, never
    lowers [track_count], never touches a track below the old count, and
    leaves [master_volume], [playing] and [initialized] alone. *)
Theorem add_track_keeps_invariants (e : AudioEngine) (nm : string)
    (freq : float) :
  engine_wf e -> tracks_wf e ->
  let index := fst (audio_engine_add_track e nm freq) in
  let e' := snd (audio_engine_add_track e nm freq) in
  engine_wf e' /\ tracks_wf e' /\
  (index = (-1)%Z /\ e' = e \/
   (0 <= index < MAX_TRACKS)%Z /\ index = track_count e /\
   track_count e' = (index + 1)%Z) /\
  (track_count e <= track_count e')%Z /\
  (forall j : nat, (j < Z.to_nat (track_count e))%nat ->
     tracks e' !! j = tracks e !! j) /\
  master_volume e' = master_volume e /\
  engine_playing e' = engine_playing e /\
  initialized e' = initialized e.
Proof.
  intros Hwf Htr. cbn zeta.
  destruct (add_track_wf e nm freq Hwf Htr) as [Hwf' Htr'].
  split; [ exact Hwf' | ]. split; [ exact Htr' | ].
  destruct Hwf as [Hlen Hcnt]. split; [ | split; [ | split ] ].
  - unfold audio_engine_add_track.
    destruct (Z.geb_spec (track_count e) MAX_TRACKS) as [Hge | Hlt]; simpl.
    + left. split; reflexivity.
    + right. split; [ lia | split; reflexivity ].
  - rewrite add_track_count.
    destruct (track_count e >=? MAX_TRACKS)%Z; lia.
  - intros j Hj. apply add_track_below; [ lia | exact Hj ].
  - unfold audio_engine_add_track.
    destruct (track_count e >=? MAX_TRACKS)%Z; simpl;
      repeat split; reflexivity.
Qed.

Lemma zero_engine_wf : engine_wf zero_engine /\ tracks_wf zero_engine.
Proof.
  split.
  - split; [ reflexivity | simpl; unfold MAX_TRACKS; lia ].
  - unfold tracks_wf, zero_engine. cbn [tracks]. apply Forall_replicate.
    split; [ reflexivity | simpl; unfold MAX_EFFECTS_PER_TRACK; lia ].
Qed.

Lemma add_track_keeps_invariants_witness :
  engine_wf (snd (audio_engine_add_track zero_engine "Bass" 110)).
Proof.
  apply (add_track_keeps_invariants zero_engine "Bass" 110);
    apply zero_engine_wf.
Defined.

(** X8. A run of [add_track] calls on a well-formed engine ends with
    [track_count = min(16, old count + number of calls)]: the calls
    beyond the capacity are dropped.  The engine stays well-formed and
    the tracks that existed before the run are untouched. *)
Theorem add_tracks_saturates (requests : list (string * float)) :
  forall e : AudioEngine,
  engine_wf e -> tracks_wf e ->
  track_count (add_tracks e requests)
  = Z.min MAX_TRACKS (track_count e + Z.of_nat (length requests)) /\
  engine_wf (add_tracks e requests) /\ tracks_wf (add_tracks e requests) /\
  forall j : nat, (j < Z.to_nat (track_count e))%nat ->
    tracks (add_tracks e requests) !! j = tracks e !! j.
Proof.
  induction requests as [|[nm freq] requests IH]; intros e Hwf Htr.
  - simpl. destruct Hwf as [Hlen Hcnt].
    split; [ lia | ]. split; [ split; assumption | ].
    split; [ exact Htr | reflexivity ].
  - unfold add_tracks in *. cbn [foldl fst snd length].
    destruct (add_track_wf e nm freq Hwf Htr) as [Hwf' Htr'].
    destruct (IH _ Hwf' Htr') as (Hc & Hw & Ht & Hbelow).
    pose proof (add_track_count e nm freq) as Hstep.
    destruct Hwf as [Hlen Hcnt].
    split; [ | split; [ exact Hw | split; [ exact Ht | ] ] ].
    + rewrite Hc, Hstep.
      destruct (Z.geb_spec (track_count e) MAX_TRACKS); lia.
    + intros j Hj. rewrite Hbelow.
      * apply add_track_below; [ lia | exact Hj ].
      * rewrite Hstep. destruct (track_count e >=? MAX_TRACKS)%Z; lia.
Qed.

Lemma add_tracks_saturates_witness :
  track_count (add_tracks zero_engine
                 [("Bass"%string, 110); ("Lead"%string, 440)])
  = Z.min MAX_TRACKS (0 + 2).
Proof.
  apply (add_tracks_saturates [("Bass"%string, 110); ("Lead"%string, 440)]
           zero_engine); apply zero_engine_wf.
Defined.

(** ** Control surface: the life cycle *)

(** [shutdown] does nothing on an engine that is not initialized; on an
    initialized one it stops playback, releases the device and the log
    and clears [initialized].  In both cases the tracks, the track count
    and the master volume are kept, and a second [shutdown] changes
    nothing more. *)
Lemma shutdown_spec (e : AudioEngine) :
  (initialized e = false -> audio_engine_shutdown e = e) /\
  (initialized e = true ->
     engine_playing (audio_engine_shutdown e) = false /\
     device (audio_engine_shutdown e) = DeviceUninit /\
     log_ready (audio_engine_shutdown e) = false) /\
  initialized (audio_engine_shutdown e) = false /\
  tracks (audio_engine_shutdown e) = tracks e /\
  track_count (audio_engine_shutdown e) = track_count e /\
  master_volume (audio_engine_shutdown e) = master_volume e /\
  audio_engine_shutdown (audio_engine_shutdown e) = audio_engine_shutdown e.
Proof.
  unfold audio_engine_shutdown.
  destruct (initialized e) eqn:Hini; simpl; rewrite ?Hini;
    repeat split; intros; try discriminate; try reflexivity.
Qed.

(** X9. Life cycle of an engine that starts uninitialized.  After a
    failed [init], [shutdown] is a no-op (nothing is released twice);
    after a successful [init], the engine is stopped, empty and at
    master volume 0.75 with the device running, and [shutdown] stops
    playback, releases the device and the log, clears [initialized] and
    keeps the tracks, the track count and the master volume.  In both
    cases a second [shutdown] changes nothing more. *)
Theorem init_then_shutdown (e : AudioEngine) (sink : SinkOutcome) :
  initialized e = false ->
  let ok := fst (audio_engine_init e sink) in
  let e' := snd (audio_engine_init e sink) in
  (ok = false -> audio_engine_shutdown e' = e') /\
  (ok = true ->
     engine_playing e' = false /\ track_count e' = 0%Z /\
     master_volume e' = 0.75 /\ device e' = DeviceStarted /\
     device (audio_engine_shutdown e') = DeviceUninit /\
     log_ready (audio_engine_shutdown e') = false /\
     engine_playing (audio_engine_shutdown e') = false /\
     initialized (audio_engine_shutdown e') = false /\
     tracks (audio_engine_shutdown e') = tracks e' /\
     track_count (audio_engine_shutdown e') = track_count e' /\
     master_volume (audio_engine_shutdown e') = master_volume e') /\
  audio_engine_shutdown (audio_engine_shutdown e') = audio_engine_shutdown e'.
Proof.
  intros Hini. cbn zeta. split; [ | split ].
  - unfold audio_engine_init, audio_engine_shutdown.
    destruct (device_init_ok sink), (device_start_ok sink); simpl;
      rewrite ?Hini; intros; try discriminate; reflexivity.
  - unfold audio_engine_init, audio_engine_shutdown.
    destruct (device_init_ok sink), (device_start_ok sink); simpl;
      rewrite ?Hini; intros; try discriminate; repeat split; reflexivity.
  - apply shutdown_spec.
Qed.

Lemma init_then_shutdown_witness :
  device (audio_engine_shutdown
            (snd (audio_engine_init zero_engine (mkSinkOutcome true true))))
  = DeviceUninit.
Proof.
  destruct (init_then_shutdown zero_engine (mkSinkOutcome true true) eq_refl)
    as (_ & Hok & _).
  destruct (Hok eq_refl) as (_ & _ & _ & _ & Hdev & _). exact Hdev.
Defined.

(** ** Effect units: bypass, unity and silence *)

Lemma filter_run_disabled (step : float -> Effect -> float -> float * float)
    (effect : Effect) :
  (forall x s, step x effect s = (x, s)) ->
  forall (buf : list float) (state : float),
  filter_run step effect buf state = (buf, state).
Proof.
  intros Hstep buf. induction buf as [|x buf IH]; intros state; simpl.
  - reflexivity.
  - rewrite Hstep, IH. reflexivity.
Qed.

Lemma filter_case_disabled
    (step : float -> Effect -> float -> float * float) (effect : Effect)
    (t : nat) (left right : list float) (fs : FilterState) :
  (forall x s, step x effect s = (x, s)) ->
  filter_case step effect t left right fs = (left, right, fs).
Proof.
  intros Hstep. unfold filter_case.
  destruct (filter_state_l fs !! t) as [sl|] eqn:El; [ | reflexivity ].
  destruct (filter_state_r fs !! t) as [sr|] eqn:Er; [ | reflexivity ].
  rewrite !filter_run_disabled by exact Hstep.
  rewrite !list_insert_id by assumption. destruct fs; reflexivity.
Qed.

Lemma map_fixed {A : Type} (f : A -> A) :
  (forall x, f x = x) -> forall l : list A, map f l = l.
Proof.
  intros Hf l. induction l as [|x l IH]; simpl;
    [ reflexivity | rewrite Hf, IH; reflexivity ].
Qed.

Lemma apply_effect_transparent (effect : Effect) (t : nat)
    (left right : list float) (fs : FilterState) :
  transparent effect ->
  apply_effect effect t left right fs = (left, right, fs).
Proof.
  unfold transparent, apply_effect. destruct (type effect); intros Htr;
    try reflexivity.
  - assert (Hid : forall s, process_gain_effect s effect = s).
    { intros s. unfold process_gain_effect.
      destruct Htr as [-> | ->]; simpl; [ reflexivity | ].
      destruct (enabled effect); simpl; [ lra | reflexivity ]. }
    rewrite !(map_fixed _ Hid). reflexivity.
  - apply filter_case_disabled. intros x s.
    unfold process_lowpass_effect. rewrite Htr. reflexivity.
  - apply filter_case_disabled. intros x s.
    unfold process_highpass_effect. rewrite Htr. reflexivity.
Qed.


(** X10. A chain made only of transparent effects (stub kinds Delay,
    Reverb and None, disabled effects, enabled gains of 1) returns both
    buffers and the filter memory exactly as it received them. *)
Theorem transparent_chain_is_identity (chain : list Effect) (t : nat)
    (left right : list float) (fs : FilterState) :
  Forall transparent chain ->
  effects_loop chain t left right fs = (left, right, fs).
Proof.
  intros Hall. induction Hall as [|effect chain Heff _ IH]; simpl.
  - reflexivity.
  - rewrite apply_effect_transparent by exact Heff. exact IH.
Qed.

Lemma transparent_chain_is_identity_witness :
  effects_loop [gain_stage 1; set_enabled lowpass_1k false] 0
               [0.5; 0.25] [1; 0] zero_filters
  = ([0.5; 0.25], [1; 0], zero_filters).
Proof.
  apply transparent_chain_is_identity.
  constructor; [ | constructor; [ | constructor ] ].
  - right. reflexivity.
  - reflexivity.
Defined.




(** ** Effect units: response of the one-pole filters to a constant *)

Lemma lowpass_step_enabled (effect : Effect) (x s : float) :
  enabled effect = true -> 0 < cutoff effect ->
  process_lowpass_effect x effect s
  = (x + 1 / (cutoff effect + 1) * (s - x),
     x + 1 / (cutoff effect + 1) * (s - x)).
Proof.
  intros Hen Hc. unfold process_lowpass_effect. rewrite Hen. simpl.
  assert (Heq : cutoff effect / (cutoff effect + 1) * x
                + (1 - cutoff effect / (cutoff effect + 1)) * s
                = x + 1 / (cutoff effect + 1) * (s - x)) by (field; lra).
  rewrite Heq. reflexivity.
Qed.

Lemma highpass_step_enabled (effect : Effect) (x s : float) :
  enabled effect = true -> 0 < cutoff effect ->
  process_highpass_effect x effect s
  = (x - s, x + cutoff effect / (cutoff effect + 1) * (s - x)).
Proof.
  intros Hen Hc. unfold process_highpass_effect. rewrite Hen. simpl.
  f_equal. field. lra.
Qed.

(** X12. Step response. For an enabled filter with cutoff above zero fed
    a constant [x] from memory [s0]: output [i] of the lowpass is
    [x + (1/(cutoff+1))^(i+1) * (s0 - x)], so it closes in on [x]
    geometrically; output [i] of the highpass is
    [(cutoff/(cutoff+1))^i * (x - s0)], so a constant input dies away
    geometrically. *)
Theorem one_pole_step_response (effect : Effect) (x : float) (n : nat) :
  enabled effect = true -> 0 < cutoff effect ->
  forall (s0 : float) (i : nat), (i < n)%nat ->
  fst (filter_run process_lowpass_effect effect (replicate n x) s0) !! i
  = Some (x + (1 / (cutoff effect + 1)) ^ S i * (s0 - x)) /\
  fst (filter_run process_highpass_effect effect (replicate n x) s0) !! i
  = Some ((cutoff effect / (cutoff effect + 1)) ^ i * (x - s0)).
Proof.
  intros Hen Hc. induction n as [|n IH]; intros s0 i Hi; [ lia | ].
  cbn [replicate filter_run].
  rewrite lowpass_step_enabled, highpass_step_enabled by assumption.
  destruct i as [|i].
  - destruct (filter_run process_lowpass_effect _ _ _) as [ys1 st1].
    destruct (filter_run process_highpass_effect _ _ _) as [ys2 st2].
    simpl. split; f_equal; ring.
  - destruct (IH (x + 1 / (cutoff effect + 1) * (s0 - x)) i ltac:(lia))
      as [Hlow _].
    destruct (IH (x + cutoff effect / (cutoff effect + 1) * (s0 - x)) i
                ltac:(lia)) as [_ Hhigh].
    destruct (filter_run process_lowpass_effect _ _ _) as [ys1 st1].
    destruct (filter_run process_highpass_effect _ _ _) as [ys2 st2].
    simpl in *. rewrite Hlow, Hhigh. split; f_equal.
    + simpl. ring.
    + simpl. ring.
Qed.

Lemma one_pole_step_response_witness :
  fst (filter_run process_highpass_effect lowpass_1k (replicate 2 1) 1)
    !! 1%nat
  = Some ((cutoff lowpass_1k / (cutoff lowpass_1k + 1)) ^ 1 * (1 - 1)).
Proof.
  apply (one_pole_step_response lowpass_1k 1 2).
  - reflexivity.
  - unfold cutoff, lowpass_1k. simpl. lra.
  - lia.
Defined.

(** X13. Filtering does not depend on where the period boundaries fall:
    running a filter over two buffers one after the other, the memory
    carried from the first to the second, gives the outputs and the
    final memory of one run over their concatenation. *)
Theorem filter_run_app (step : float -> Effect -> float -> float * float)
    (effect : Effect) (buf1 buf2 : list float) (state : float) :
  filter_run step effect (buf1 ++ buf2) state
  = (fst (filter_run step effect buf1 state)
     ++ fst (filter_run step effect buf2
               (snd (filter_run step effect buf1 state))),
     snd (filter_run step effect buf2
            (snd (filter_run step effect buf1 state)))).
Proof.
  revert state. induction buf1 as [|x buf1 IH]; intros state; simpl.
  - destruct (filter_run step effect buf2 state); reflexivity.
  - destruct (step x effect state) as [y state1].
    rewrite IH.
    destruct (filter_run step effect buf1 state1) as [ys state2].
    reflexivity.
Qed.

(** ** Oscillator: power, headroom and the waveform *)

Lemma gains_power (p : float) :
  left_gain p * left_gain p + right_gain p * right_gain p = 1.
Proof.
  unfold left_gain, right_gain.
  pose proof (sin2_cos2 ((p + 1) * PI / 4)) as H. unfold Rsqr in H. lra.
Qed.

Lemma gain_magnitudes (p : float) :
  Rabs (left_gain p) <= 1 /\ Rabs (right_gain p) <= 1.
Proof.
  unfold left_gain, right_gain. split; apply Rabs_le.
  - apply COS_bound.
  - apply SIN_bound.
Qed.

(** X14. Constant-power panning and headroom. In a period of at most
    [BUFFER_SIZE] frames, for every pan value the squares of the two
    gains add up to 1, so the squares of the left and right sample of a
    frame add up to the square of the oscillator sample
    [sin(phase_i) * volume * 0.3]; and neither sample exceeds
    [0.3 * |volume|] in absolute value, for every phase, frequency and
    pan. *)
Theorem pan_power_and_headroom (track : Track) (n i : nat) :
  (n <= Z.to_nat BUFFER_SIZE)%nat ->
  (i < n)%nat ->
  exists l r : float,
    snd (fst (generate n track)) !! i = Some l /\
    snd (generate n track) !! i = Some r /\
    l * l + r * r
    = (sin (phase_at track i) * volume track * 0.3)
      * (sin (phase_at track i) * volume track * 0.3) /\
    Rabs l <= 0.3 * Rabs (volume track) /\
    Rabs r <= 0.3 * Rabs (volume track).
Proof.
  intros _ Hi. destruct (generate_samples n track i Hi) as [Hl Hr].
  eexists. eexists. split; [ exact Hl | ]. split; [ exact Hr | ].
  pose proof (gains_power (pan track)) as Hpow.
  destruct (gain_magnitudes (pan track)) as [Hgl Hgr].
  assert (Hs : Rabs (sin (phase_at track i) * volume track * 0.3)
               <= 0.3 * Rabs (volume track)).
  { rewrite !Rabs_mult. rewrite (Rabs_pos_eq 0.3) by lra.
    assert (Hsin : Rabs (sin (phase_at track i)) <= 1)
      by (apply Rabs_le; apply SIN_bound).
    pose proof (Rabs_pos (volume track)). nra. }
  split; [ | split ].
  - set (s := sin (phase_at track i) * volume track * 0.3) in *.
    replace (s * left_gain (pan track) * (s * left_gain (pan track))
             + s * right_gain (pan track) * (s * right_gain (pan track)))
      with (s * s * (left_gain (pan track) * left_gain (pan track)
                     + right_gain (pan track) * right_gain (pan track)))
      by ring.
    rewrite Hpow. ring.
  - rewrite Rabs_mult.
    pose proof (Rabs_pos (sin (phase_at track i) * volume track * 0.3)).
    pose proof (Rabs_pos (left_gain (pan track))). nra.
  - rewrite Rabs_mult.
    pose proof (Rabs_pos (sin (phase_at track i) * volume track * 0.3)).
    pose proof (Rabs_pos (right_gain (pan track))). nra.
Qed.

Lemma pan_power_and_headroom_witness :
  exists l r : float,
    snd (fst (generate 2 fast_track)) !! 1%nat = Some l /\
    snd (generate 2 fast_track) !! 1%nat = Some r /\
    Rabs l <= 0.3 * Rabs (volume fast_track).
Proof.
  assert (Hn : (2 <= Z.to_nat BUFFER_SIZE)%nat) by (unfold BUFFER_SIZE; lia).
  destruct (pan_power_and_headroom fast_track 2 1 Hn ltac:(lia))
    as (l & r & Hl & Hr & _ & Hb & _).
  exists l, r. repeat split; assumption.
Defined.

Lemma advance_phase_wraps (p f : float) :
  advance_phase p f = p + 2 * PI * f / IZR SAMPLE_RATE
  \/ advance_phase p f = p + 2 * PI * f / IZR SAMPLE_RATE - 2 * PI.
Proof.
  unfold advance_phase. destruct (Rgt_dec _ _); [ right | left ];
    reflexivity.
Qed.

Lemma phase_at_S (track : Track) (i : nat) :
  phase_at track (S i) = advance_phase (phase_at track i) (frequency track).
Proof. reflexivity. Qed.

Lemma phase_at_unwrapped (track : Track) (i : nat) :
  exists k : nat,
    phase_at track i + 2 * INR k * PI
    = phase track + INR i * phase_step track.
Proof.
  induction i as [|i [k Hk]].
  - exists 0%nat. unfold phase_at. simpl. lra.
  - rewrite phase_at_S, S_INR. unfold phase_step in *.
    destruct (advance_phase_wraps (phase_at track i) (frequency track))
      as [H | H]; rewrite H.
    + exists k. lra.
    + exists (S k). rewrite S_INR. lra.
Qed.

(** X15. The wrap-correction never changes the waveform: for every
    frequency and start phase, the sine the oscillator evaluates at
    sample [i] is [sin(phase + i * 2*pi*frequency/sample_rate)], the sine
    of the phase that would have accumulated without any wrap; so sample
    [i] of a period of at most [BUFFER_SIZE] frames is that sine times
    [volume * 0.3] times the pan gain. *)
Theorem wrap_preserves_waveform (track : Track) (n i : nat) :
  (n <= Z.to_nat BUFFER_SIZE)%nat ->
  (i < n)%nat ->
  sin (phase_at track i) = sin (phase track + INR i * phase_step track) /\
  snd (fst (generate n track)) !! i
  = Some (sin (phase track + INR i * phase_step track) * volume track * 0.3
          * left_gain (pan track)) /\
  snd (generate n track) !! i
  = Some (sin (phase track + INR i * phase_step track) * volume track * 0.3
          * right_gain (pan track)).
Proof.
  intros _ Hi.
  assert (Hsin : sin (phase_at track i)
                 = sin (phase track + INR i * phase_step track)).
  { destruct (phase_at_unwrapped track i) as [k Hk].
    rewrite <- Hk. symmetry. apply sin_period. }
  split; [ exact Hsin | ].
  destruct (generate_samples n track i Hi) as [Hl Hr].
  rewrite <- Hsin. split; assumption.
Qed.

Lemma wrap_preserves_waveform_witness :
  sin (phase_at fast_track 1)
  = sin (phase fast_track + INR 1 * phase_step fast_track).
Proof.
  apply (wrap_preserves_waveform fast_track 2 1).
  - unfold BUFFER_SIZE. lia.
  - lia.
Defined.

(** X16. The oscillator does not depend on where the period boundaries
    fall: as long as [n + m] frames fit the [BUFFER_SIZE] frames of a
    period, generating [n + m] samples in one go gives the buffers of
    generating [n] samples and then [m] more from the track the first
    run left, concatenated, and leaves the same track. *)
Theorem generate_app (n m : nat) (track : Track) :
  (n + m <= Z.to_nat BUFFER_SIZE)%nat ->
  let first := generate n track in
  let second := generate m (fst (fst first)) in
  generate (n + m) track
  = (fst (fst second),
     snd (fst first) ++ snd (fst second),
     snd first ++ snd second).
Proof.
  intros _. revert track. induction n as [|n IH]; intros track; cbn zeta.
  - simpl. destruct (generate m track) as [[t2 l2] r2]. reflexivity.
  - cbn [Nat.add generate].
    specialize (IH (set_phase track
                      (advance_phase (phase track) (frequency track)))).
    cbn zeta in IH. rewrite IH.
    destruct (generate n _) as [[t1 l1] r1]. cbn [fst snd].
    destruct (generate m t1) as [[t2 l2] r2]. reflexivity.
Qed.

Lemma generate_app_witness :
  generate (1 + 2) nyquist_track
  = (fst (fst (generate 2 (fst (fst (generate 1 nyquist_track))))),
     snd (fst (generate 1 nyquist_track))
     ++ snd (fst (generate 2 (fst (fst (generate 1 nyquist_track))))),
     snd (generate 1 nyquist_track)
     ++ snd (generate 2 (fst (fst (generate 1 nyquist_track))))).
Proof.
  apply (generate_app 1 2 nyquist_track). unfold BUFFER_SIZE. lia.
Defined.

(** ** Callback: the output buffer as a list *)

Lemma interleave_length (left : list float) :
  forall right : list float,
  length left = length right ->
  length (interleave left right) = (2 * length left)%nat.
Proof.
  induction left as [|l left IH]; intros [|r right] Hlen;
    try discriminate; simpl; [ reflexivity | ].
  rewrite IH by (simpl in Hlen; lia). lia.
Qed.


Lemma deinterleave_interleave (left : list float) :
  forall right : list float,
  length left = length right ->
  deinterleave (interleave left right) = (left, right).
Proof.
  induction left as [|l left IH]; intros [|r right] Hlen;
    try discriminate; [ reflexivity | ].
  cbn [interleave deinterleave]. rewrite IH by (simpl in Hlen; lia).
  reflexivity.
Qed.

(** The mixing loop adds the interleaved track buffers to the frames of
    the output buffer it walks over. *)
Lemma mix_and_meter_out (temp_left : list float) :
  forall (temp_right pre post : list float) (i : nat)
         (pk rm : float * float),
  length temp_left = length temp_right ->
  length pre = (i * 2)%nat ->
  length post = (2 * length temp_left)%nat ->
  fst (fst (mix_and_meter i temp_left temp_right (pre ++ post) pk rm))
  = pre ++ zip_with Rplus post (interleave temp_left temp_right).
Proof.
  induction temp_left as [|l temp_left IH];
    intros [|r temp_right] pre post i pk rm Hlen Hpre Hpost;
    try discriminate.
  - destruct post; [ reflexivity | discriminate ].
  - destruct post as [|a [|b post]]; simpl in Hpost; try lia.
    cbn [mix_and_meter interleave zip_with].
    replace (i * 2 + 0)%nat with (length pre + 0)%nat by lia.
    rewrite alter_app_r.
    replace (i * 2 + 1)%nat with (length pre + 1)%nat by lia.
    rewrite alter_app_r.
    change (alter (fun o => o + r) 1%nat
              (alter (fun o => o + l) 0%nat (a :: b :: post)))
      with ([a + l; b + r] ++ post).
    rewrite app_assoc.
    rewrite IH.
    + rewrite <- app_assoc. reflexivity.
    + simpl in Hlen. lia.
    + rewrite length_app. simpl. lia.
    + lia.
Qed.

Lemma mix_and_meter_out_length (temp_left : list float) :
  forall (temp_right out : list float) (i : nat) (pk rm : float * float),
  length (fst (fst (mix_and_meter i temp_left temp_right out pk rm)))
  = length out.
Proof.
  induction temp_left as [|l temp_left IH];
    intros [|r temp_right] out i pk rm; try reflexivity.
  cbn [mix_and_meter]. rewrite IH, !length_alter. reflexivity.
Qed.

(** The master loop scales the frames it walks over and meters the
    scaled samples, channel by channel. *)
Lemma master_loop_spec (n : nat) :
  forall (pre post : list float) (i : nat) (mv : float)
         (pk rm : float * float),
  length pre = (i * 2)%nat ->
  length post = (2 * n)%nat ->
  0 <= fst pk -> 0 <= snd pk ->
  let scaled := map (fun o => o * mv) post in
  master_loop i n mv (pre ++ post) pk rm
  = (pre ++ scaled,
     (Rmax (fst pk) (max_abs (fst (deinterleave scaled))),
      Rmax (snd pk) (max_abs (snd (deinterleave scaled)))),
     (fst rm + sum_squares (fst (deinterleave scaled)),
      snd rm + sum_squares (snd (deinterleave scaled)))).
Proof.
  induction n as [|n IH]; intros pre post i mv pk rm Hpre Hpost Hp0 Hp1;
    cbn zeta.
  - destruct post; [ | discriminate ]. simpl.
    rewrite !Rmax_left by lra. rewrite !Rplus_0_r.
    destruct pk, rm; reflexivity.
  - destruct post as [|a [|b post]]; simpl in Hpost; try lia.
    cbn [master_loop].
    replace (i * 2 + 0)%nat with (length pre + 0)%nat by lia.
    rewrite alter_app_r.
    replace (i * 2 + 1)%nat with (length pre + 1)%nat by lia.
    rewrite alter_app_r.
    change (alter (fun o => o * mv) 1%nat
              (alter (fun o => o * mv) 0%nat (a :: b :: post)))
      with (a * mv :: b * mv :: post).
    rewrite (lookup_app_r pre) by lia.
    rewrite (lookup_app_r pre) by lia.
    replace (length pre + 0 - length pre)%nat with 0%nat by lia.
    replace (length pre + 1 - length pre)%nat with 1%nat by lia.
    cbn [lookup list_lookup default from_option id].
    rewrite !running_peak_max.
    change (pre ++ a * mv :: b * mv :: post)
      with (pre ++ [a * mv; b * mv] ++ post).
    rewrite app_assoc.
    rewrite IH.
    + cbn [map deinterleave fst snd max_abs sum_squares foldr].
      rewrite <- app_assoc. rewrite <- !Rmax_assoc.
      unfold Datatypes.id, max_abs, sum_squares.
      apply (f_equal2 pair); [ reflexivity | apply (f_equal2 pair); ring ].
    + rewrite length_app. simpl. lia.
    + lia.
    + simpl. eapply Rle_trans; [ exact Hp0 | apply Rmax_l ].
    + simpl. eapply Rle_trans; [ exact Hp1 | apply Rmax_l ].
Qed.

Lemma master_loop_out_length (n : nat) :
  forall (out : list float) (i : nat) (mv : float) (pk rm : float * float),
  length (fst (fst (master_loop i n mv out pk rm))) = length out.
Proof.
  induction n as [|n IH]; intros out i mv pk rm; [ reflexivity | ].
  cbn [master_loop]. rewrite IH, !length_alter. reflexivity.
Qed.

Lemma memset_zero_length (buf : list float) (k : nat) :
  length (memset_zero buf k) = length buf.
Proof.
  unfold memset_zero. rewrite length_app, length_replicate, length_drop.
  lia.
Qed.

(** ** Callback: the output as the scaled sum of the rendered tracks *)

Lemma render_track_out (frame_count : Z) (t : nat) (track : Track)
    (st : MixState) (fs : FilterState) :
  slot_agree t (st_filters st) fs ->
  length (st_out st) = (2 * Z.to_nat frame_count)%nat ->
  st_out (render_track frame_count t track st)
  = zip_with Rplus (st_out st)
      (interleave (fst (track_buffers frame_count t track fs))
                  (snd (track_buffers frame_count t track fs))).
Proof.
  intros Hag Hout.
  destruct (track_buffers_length frame_count t track fs) as [HlenL HlenR].
  pose proof (track_buffers_unfold frame_count t track fs) as Hu.
  cbn zeta in Hu. rewrite render_track_unfold. cbn [st_out].
  destruct (effects_stage_agree
              (fst (fst (generate (Z.to_nat frame_count)
                           (set_meters track (0, 0) (0, 0))))) t
              (snd (fst (generate (Z.to_nat frame_count)
                           (set_meters track (0, 0) (0, 0)))))
              (snd (generate (Z.to_nat frame_count)
                      (set_meters track (0, 0) (0, 0))))
              (st_filters st) fs Hag) as [Hbuf _].
  rewrite Hbuf, <- Hu.
  change (st_out st) with ([] ++ st_out st) at 1.
  rewrite mix_and_meter_out; [ reflexivity | congruence | reflexivity | lia ].
Qed.

Lemma render_at_engine (frame_count : Z) (st : MixState) (t : nat) :
  exists l : list Track,
    st_engine (render_at frame_count st t) = set_tracks (st_engine st) l /\
    length l = length (tracks (st_engine st)).
Proof.
  unfold render_at.
  destruct (tracks (st_engine st) !! t) as [track|].
  - rewrite render_track_unfold. cbn [st_engine]. eexists.
    split; [ reflexivity | apply length_insert ].
  - exists (tracks (st_engine st)). split; [ | reflexivity ].
    destruct (st_engine st); reflexivity.
Qed.

Lemma foldl_render_engine (frame_count : Z) (l : list nat) :
  forall st : MixState,
  exists k : list Track,
    st_engine (foldl (render_at frame_count) st l)
    = set_tracks (st_engine st) k /\
    length k = length (tracks (st_engine st)).
Proof.
  induction l as [|t l IH]; intros st; simpl.
  - exists (tracks (st_engine st)). split; [ | reflexivity ].
    destruct (st_engine st); reflexivity.
  - destruct (render_at_engine frame_count st t) as (k1 & Hk1 & Hl1).
    destruct (IH (render_at frame_count st t)) as (k & Hk & Hl).
    exists k. rewrite Hk, Hk1. split; [ reflexivity | ].
    rewrite Hl, Hk1. exact Hl1.
Qed.

Lemma render_at_other (frame_count : Z) (st : MixState) (u t : nat) :
  t <> u ->
  tracks (st_engine (render_at frame_count st u)) !! t
  = tracks (st_engine st) !! t /\
  slot_agree t (st_filters (render_at frame_count st u)) (st_filters st).
Proof.
  intros Hne. unfold render_at.
  destruct (tracks (st_engine st) !! u) as [track|].
  - apply render_track_other. exact Hne.
  - split; [ reflexivity | apply slot_agree_refl ].
Qed.

(** Running the loop body over distinct indices whose slots are as in
    [e] and [fs] adds the contributions computed from [e] and [fs]. *)
Lemma foldl_render_mix (e : AudioEngine) (fs : FilterState)
    (frame_count : Z) (l : list nat) :
  NoDup l ->
  forall st : MixState,
  (forall t, t ∈ l ->
     tracks (st_engine st) !! t = tracks e !! t /\
     is_Some (tracks e !! t) /\
     slot_agree t (st_filters st) fs) ->
  length (st_out st) = (2 * Z.to_nat frame_count)%nat ->
  st_out (foldl (render_at frame_count) st l)
  = mix_sum e fs frame_count (st_out st) l.
Proof.
  induction l as [|t l IH]; intros Hnd st Hinv Hout; [ reflexivity | ].
  apply NoDup_cons in Hnd as [Hnot Hnd].
  destruct (Hinv t ltac:(left)) as (Ht & [track Hsome] & Hag).
  unfold mix_sum. cbn [foldl]. fold (mix_sum e fs frame_count).
  assert (Hstep : st_out (render_at frame_count st t)
                  = zip_with Rplus (st_out st)
                      (track_contribution e fs frame_count t)).
  { unfold render_at, track_contribution. rewrite Ht, Hsome.
    apply render_track_out; assumption. }
  rewrite <- Hstep. apply IH; [ exact Hnd | | ].
  - intros t' Ht'.
    assert (Hne : t' <> t) by (intros ->; contradiction).
    destruct (Hinv t' ltac:(right; exact Ht')) as (H1 & H2 & H3).
    destruct (render_at_other frame_count st t t' Hne) as [H4 H5].
    split; [ congruence | ]. split; [ exact H2 | ].
    eapply slot_agree_trans; eassumption.
  - rewrite Hstep, length_zip_with. unfold track_contribution.
    rewrite Hsome.
    destruct (track_buffers_length frame_count t track fs) as [HL HR].
    rewrite interleave_length by congruence. lia.
Qed.

Lemma foldl_render_out_length (frame_count : Z) (l : list nat) :
  forall st : MixState,
  length (st_out (foldl (render_at frame_count) st l)) = length (st_out st).
Proof.
  induction l as [|t l IH]; intros st; [ reflexivity | ].
  simpl. rewrite IH. unfold render_at.
  destruct (tracks (st_engine st) !! t); [ | reflexivity ].
  rewrite render_track_unfold. cbn [st_out].
  apply mix_and_meter_out_length.
Qed.

Lemma included_is_some (e : AudioEngine) (t : nat) :
  t ∈ included_tracks e -> is_Some (tracks e !! t).
Proof.
  unfold included_tracks. rewrite list_elem_of_filter. unfold rendered.
  intros [Hr _]. destruct (tracks e !! t); [ eauto | discriminate ].
Qed.

Lemma zeroed_floats_whole (out : list float) (frame_count : Z) :
  (0 <= frame_count * CHANNELS < 2 ^ 32)%Z ->
  length out = Z.to_nat (frame_count * CHANNELS) ->
  memset_zero out (zeroed_floats frame_count)
  = replicate (Z.to_nat (frame_count * CHANNELS)) 0.
Proof.
  intros Hfit Hlen. unfold zeroed_floats.
  rewrite Z.mod_small by exact Hfit. rewrite <- Hlen.
  apply memset_zero_whole.
Qed.

Lemma master_stage_out (st : MixState) (frame_count : Z) :
  length (st_out st) = (2 * Z.to_nat frame_count)%nat ->
  0 <= fst (master_peak (st_engine st)) ->
  0 <= snd (master_peak (st_engine st)) ->
  st_out (master_stage st frame_count)
  = map (fun o => o * master_volume (st_engine st)) (st_out st).
Proof.
  intros Hlen Hp0 Hp1. unfold master_stage.
  change (st_out st) with ([] ++ st_out st) at 1.
  rewrite master_loop_spec by (assumption || reflexivity). reflexivity.
Qed.

Lemma callback_mix_output (e : AudioEngine) (fs : FilterState)
    (out : list float) (frame_count : Z) :
  engine_playing e = true ->
  (0 <= frame_count * CHANNELS < 2 ^ 32)%Z ->
  length out = Z.to_nat (frame_count * CHANNELS) ->
  st_out (audio_callback e fs out frame_count)
  = map (fun o => o * master_volume e)
        (mix_sum e fs frame_count
           (replicate (Z.to_nat (frame_count * CHANNELS)) 0)
           (included_tracks e)).
Proof.
  intros Hplay Hfit Hlen.
  rewrite callback_renders_included by exact Hplay.
  assert (Hn : Z.to_nat (frame_count * CHANNELS)
               = (2 * Z.to_nat frame_count)%nat)
    by (unfold CHANNELS in *; lia).
  set (st0 := loop_entry e fs out frame_count).
  assert (Hout0 : st_out st0 = replicate (Z.to_nat (frame_count * CHANNELS)) 0)
    by (apply zeroed_floats_whole; assumption).
  assert (Hmix : st_out (foldl (render_at frame_count) st0 (included_tracks e))
                 = mix_sum e fs frame_count (st_out st0) (included_tracks e)).
  { apply foldl_render_mix.
    - apply NoDup_filter, NoDup_seq.
    - intros t Ht. split; [ reflexivity | ].
      split; [ apply included_is_some; exact Ht | apply slot_agree_refl ].
    - rewrite Hout0, length_replicate. exact Hn. }
  destruct (foldl_render_engine frame_count (included_tracks e) st0)
    as (k & Hk & _).
  rewrite master_stage_out.
  - rewrite Hk, Hmix, Hout0. reflexivity.
  - rewrite foldl_render_out_length, Hout0, length_replicate. exact Hn.
  - rewrite Hk. simpl. lra.
  - rewrite Hk. simpl. lra.
Qed.

Lemma render_track_slot (frame_count : Z) (t : nat) (track : Track)
    (st : MixState) :
  tracks (st_engine st) !! t = Some track ->
  exists pk rm : float * float,
    tracks (st_engine (render_track frame_count t track st))
    = <[t := set_meters
               (set_phase track (phase_at track (Z.to_nat frame_count)))
               pk rm]> (tracks (st_engine st)).
Proof.
  intros Ht. rewrite render_track_unfold. cbn [st_engine set_tracks tracks].
  rewrite generate_track. eexists. eexists. reflexivity.
Qed.

(** The slot of a track the test lets through, at the end of the
    callback: the phase advanced by [frame_count] samples, the fields of
    the control thread as they were. *)
Lemma included_slot (e : AudioEngine) (fs : FilterState)
    (out : list float) (frame_count : Z) (t : nat) (track : Track) :
  engine_playing e = true ->
  (t < Z.to_nat (track_count e))%nat ->
  tracks e !! t = Some track ->
  skipped (any_solo e) track = false ->
  exists pk rm : float * float,
    tracks (st_engine (audio_callback e fs out frame_count)) !! t
    = Some (set_meters
              (set_phase track (phase_at track (Z.to_nat frame_count)))
              pk rm).
Proof.
  intros Hplay Hlt Ht Hpass.
  unfold audio_callback. rewrite Hplay. simpl.
  change (any_solo (set_master_meters e (0, 0) (0, 0))) with (any_solo e).
  rewrite (proj1 (master_stage_tracks _ frame_count)).
  destruct (mix_tracks_slot (any_solo e) frame_count
              (mkMixState (set_master_meters e (0, 0) (0, 0)) fs
                 (memset_zero out (zeroed_floats frame_count))) t Hlt)
    as (st_pre & Hpre & _ & Hfin & _).
  simpl in Hpre. rewrite Ht in Hpre.
  rewrite (mix_track_render e frame_count st_pre t track Hpre Hpass) in Hfin.
  destruct (render_track_slot frame_count t track st_pre Hpre)
    as (pk & rm & Hslot).
  rewrite Hslot in Hfin.
  rewrite list_lookup_insert_eq in Hfin
    by (eapply lookup_lt_Some; exact Hpre).
  exists pk, rm. exact Hfin.
Qed.

(** ** Callback: eligibility *)

(** C1. With the engine playing and a period of at most [BUFFER_SIZE]
    frames, the callback is the master stage applied to the loop body
    run, in index order, over exactly the tracks that pass the test, and
    the output buffer ends as [master_volume] times the sum, from zero,
    of the interleaved post-effects buffers of exactly those tracks.  A
    track of index below [track_count] is left out exactly when its mute
    flag is true, or its playing flag is false, or some track below
    [track_count] is soloed while it is not.  The iteration of a track
    that is left out returns the state (output buffer, tracks, filter
    memory) as it received it, and the callback ends with the track and
    its filter slot as they were.  The iteration of a track that passes
    is the loop body: it adds the track's interleaved post-effects
    buffers to the output buffer, and the callback ends with the
    oscillator of the track advanced by [frame_count] samples.  A muted
    track is left out whatever its solo, playing and volume values. *)
Theorem track_eligibility (e : AudioEngine) (fs : FilterState)
    (out : list float) (frame_count : Z) :
  engine_playing e = true ->
  engine_wf e ->
  (0 <= frame_count <= BUFFER_SIZE)%Z ->
  audio_callback e fs out frame_count
  = master_stage
      (foldl (render_at frame_count) (loop_entry e fs out frame_count)
             (included_tracks e))
      frame_count /\
  (chains_defined e ->
   length out = Z.to_nat (frame_count * CHANNELS) ->
   st_out (audio_callback e fs out frame_count)
   = map (fun o => o * master_volume e)
         (mix_sum e fs frame_count
            (replicate (Z.to_nat (frame_count * CHANNELS)) 0)
            (included_tracks e))) /\
  forall (t : nat) (track : Track),
    (t < Z.to_nat (track_count e))%nat ->
    tracks e !! t = Some track ->
    (t ∈ included_tracks e <-> ~ skip_condition e track) /\
    (t ∉ included_tracks e <-> skip_condition e track) /\
    (skip_condition e track ->
       (forall st : MixState,
          tracks (st_engine st) !! t = Some track ->
          mix_track (any_solo e) frame_count st t = st) /\
       tracks (st_engine (audio_callback e fs out frame_count)) !! t
       = Some track /\
       slot_agree t (st_filters (audio_callback e fs out frame_count)) fs) /\
    (~ skip_condition e track ->
       (forall st : MixState,
          tracks (st_engine st) !! t = Some track ->
          mix_track (any_solo e) frame_count st t
          = render_track frame_count t track st) /\
       (forall st : MixState,
          chain_defined track ->
          slot_agree t (st_filters st) fs ->
          length (st_out st) = (2 * Z.to_nat frame_count)%nat ->
          st_out (render_track frame_count t track st)
          = zip_with Rplus (st_out st)
              (interleave (fst (track_buffers frame_count t track fs))
                          (snd (track_buffers frame_count t track fs)))) /\
       exists track' : Track,
         tracks (st_engine (audio_callback e fs out frame_count)) !! t
         = Some track' /\
         phase track' = phase_at track (Z.to_nat frame_count) /\
         controls_eq track' track) /\
    (mute track = true -> t ∉ included_tracks e).
Proof.
  intros Hplay _ Hfc. split; [ | split ].
  - apply callback_renders_included. exact Hplay.
  - intros _ Hlen. apply callback_mix_output;
      [ exact Hplay | unfold CHANNELS, BUFFER_SIZE in *; lia | exact Hlen ].
  - intros t track Hlt Ht.
    destruct (included_iff e t track Hlt Ht) as [Hin Hout].
    split; [ exact Hin | ]. split; [ exact Hout | ]. split; [ | split ].
    + intros Hskip. apply skipped_iff in Hskip. split.
      * intros st Hst. eapply mix_track_skip; eassumption.
      * apply skipped_slot_untouched; assumption.
    + intros Hpass. apply not_skipped_iff in Hpass. split; [ | split ].
      * intros st Hst. apply mix_track_render; assumption.
      * intros st _ Hag Hlen. apply render_track_out; assumption.
      * destruct (included_slot e fs out frame_count t track
                    Hplay Hlt Ht Hpass) as (pk & rm & Hslot).
        eexists. split; [ exact Hslot | ].
        split; [ reflexivity | repeat split; reflexivity ].
    + intros Hmute. apply Hout. left. exact Hmute.
Qed.

Lemma demo_chains_defined : chains_defined demo_engine.
Proof.
  intros t track Hin Ht.
  change (included_tracks demo_engine) with [1%nat] in Hin.
  apply list_elem_of_singleton in Hin. subst t.
  injection Ht as <-. constructor.
Qed.

Lemma filtered_chains_defined : chains_defined filtered_engine.
Proof.
  intros t track Hin Ht.
  change (included_tracks filtered_engine) with [1%nat] in Hin.
  apply list_elem_of_singleton in Hin. subst t.
  injection Ht as <-. exact filtered_lead_defined.
Qed.

(** In the filtered session the muted track is left out, the soloed
    track passes and its oscillator is advanced, and the output is the
    scaled contribution of the tracks that pass. *)
Lemma track_eligibility_witness :
  (2%nat ∉ included_tracks filtered_engine) /\
  (1%nat ∈ included_tracks filtered_engine) /\
  st_out (audio_callback filtered_engine zero_filters [1; 1; 1; 1] 2)
  = map (fun o => o * master_volume filtered_engine)
        (mix_sum filtered_engine zero_filters 2
           (replicate (Z.to_nat (2 * CHANNELS)) 0)
           (included_tracks filtered_engine)) /\
  exists track' : Track,
    tracks (st_engine (audio_callback filtered_engine zero_filters
                         [1; 1; 1; 1] 2)) !! 1%nat = Some track' /\
    phase track' = phase_at filtered_lead 2.
Proof.
  assert (Hfc : (0 <= 2 <= BUFFER_SIZE)%Z) by (unfold BUFFER_SIZE; lia).
  destruct (track_eligibility filtered_engine zero_filters [1; 1; 1; 1] 2
              eq_refl filtered_engine_wf Hfc) as (_ & Hout & Htracks).
  assert (Hlt2 : (2 < Z.to_nat (track_count filtered_engine))%nat)
    by (simpl; lia).
  assert (Hlt1 : (1 < Z.to_nat (track_count filtered_engine))%nat)
    by (simpl; lia).
  destruct (Htracks 2%nat (demo_track "Pad" 220 true false true) Hlt2 eq_refl)
    as (_ & _ & _ & _ & Hmute).
  destruct (Htracks 1%nat filtered_lead Hlt1 eq_refl)
    as (Hin & _ & _ & Hpass & _).
  destruct (Hpass filtered_lead_passes) as (_ & _ & track' & Hslot & Hph & _).
  split; [ apply Hmute; reflexivity | ].
  split; [ apply Hin; exact filtered_lead_passes | ].
  split; [ exact (Hout filtered_chains_defined eq_refl) | ].
  exists track'. split; assumption.
Defined.

(** X17. With the engine playing, a period of at most [BUFFER_SIZE]
    frames, chains whose divisions are defined and an output buffer of
    [frame_count * 2] floats, the callback leaves in the buffer, whatever
    it held before, [master_volume] times the sum of the interleaved
    post-effects buffers of the tracks that pass the eligibility test,
    added up from zero in index order; every other track adds nothing. *)
Theorem callback_output_is_scaled_mix (e : AudioEngine) (fs : FilterState)
    (out : list float) (frame_count : Z) :
  engine_playing e = true ->
  engine_wf e ->
  (0 <= frame_count <= BUFFER_SIZE)%Z ->
  chains_defined e ->
  length out = Z.to_nat (frame_count * CHANNELS) ->
  st_out (audio_callback e fs out frame_count)
  = map (fun o => o * master_volume e)
        (mix_sum e fs frame_count
           (replicate (Z.to_nat (frame_count * CHANNELS)) 0)
           (included_tracks e)).
Proof.
  intros Hplay _ Hfc _ Hlen. apply callback_mix_output;
    [ exact Hplay | unfold CHANNELS, BUFFER_SIZE in *; lia | exact Hlen ].
Qed.

Lemma callback_output_is_scaled_mix_witness :
  st_out (audio_callback demo_engine zero_filters [1; 1; 1; 1] 2)
  = map (fun o => o * master_volume demo_engine)
        (mix_sum demo_engine zero_filters 2
           (replicate (Z.to_nat (2 * CHANNELS)) 0)
           (included_tracks demo_engine)).
Proof.
  apply (callback_output_is_scaled_mix demo_engine zero_filters [1; 1; 1; 1] 2).
  - reflexivity.
  - exact demo_engine_wf.
  - unfold BUFFER_SIZE. lia.
  - exact demo_chains_defined.
  - reflexivity.
Defined.

(** ** Callback: the master stage and the master meters *)

Lemma master_stage_spec (st : MixState) (frame_count : Z) :
  length (st_out st) = (2 * Z.to_nat frame_count)%nat ->
  master_peak (st_engine st) = (0, 0) ->
  master_rms (st_engine st) = (0, 0) ->
  let scaled := map (fun o => o * master_volume (st_engine st)) (st_out st) in
  master_stage st frame_count
  = mkMixState
      (set_master_meters (st_engine st)
         (max_abs (fst (deinterleave scaled)),
          max_abs (snd (deinterleave scaled)))
         (sqrt (sum_squares (fst (deinterleave scaled)) / IZR frame_count),
          sqrt (sum_squares (snd (deinterleave scaled)) / IZR frame_count)))
      (st_filters st) scaled.
Proof.
  intros Hlen Hpk Hrm. cbn zeta. unfold master_stage.
  change (st_out st) with ([] ++ st_out st) at 1.
  rewrite master_loop_spec;
    [ | reflexivity | exact Hlen | rewrite Hpk; simpl; lra
      | rewrite Hpk; simpl; lra ].
  rewrite Hpk, Hrm. cbn [fst snd app].
  rewrite !Rplus_0_l. rewrite !Rmax_right by apply max_abs_nonneg.
  reflexivity.
Qed.

Lemma loop_exit_shape (e : AudioEngine) (fs : FilterState)
    (out : list float) (frame_count : Z) (l : list nat) :
  (0 <= frame_count * CHANNELS < 2 ^ 32)%Z ->
  length out = Z.to_nat (frame_count * CHANNELS) ->
  let st := foldl (render_at frame_count)
                  (loop_entry e fs out frame_count) l in
  length (st_out st) = (2 * Z.to_nat frame_count)%nat /\
  master_peak (st_engine st) = (0, 0) /\
  master_rms (st_engine st) = (0, 0) /\
  master_volume (st_engine st) = master_volume e.
Proof.
  intros Hfit Hlen. cbn zeta.
  destruct (foldl_render_engine frame_count l
              (loop_entry e fs out frame_count)) as (k & Hk & _).
  rewrite foldl_render_out_length, Hk. unfold loop_entry. cbn [st_out].
  rewrite memset_zero_length, Hlen.
  split; [ unfold CHANNELS in *; lia | repeat split; reflexivity ].
Qed.



Lemma map_scale_zeros (k : nat) (mv : float) :
  map (fun o => o * mv) (replicate k 0) = replicate k 0.
Proof.
  induction k as [|k IH]; simpl; [ reflexivity | ].
  rewrite IH. f_equal. lra.
Qed.

Lemma deinterleave_zeros (n : nat) :
  deinterleave (replicate (2 * n) 0) = (replicate n 0, replicate n 0).
Proof.
  induction n as [|n IH]; [ reflexivity | ].
  replace (2 * S n)%nat with (S (S (2 * n))) by lia.
  cbn [replicate deinterleave]. rewrite IH. reflexivity.
Qed.

Lemma meters_of_zeros (n : nat) :
  max_abs (replicate n 0) = 0 /\ sum_squares (replicate n 0) = 0.
Proof.
  induction n as [|n [IH1 IH2]]; simpl; [ split; reflexivity | ].
  fold (max_abs (replicate n 0)). fold (sum_squares (replicate n 0)).
  rewrite IH1, IH2, Rabs_R0. split; [ apply Rmax_left; lra | lra ].
Qed.

(** X19. With the engine playing and a period of
    [0 < frame_count <= BUFFER_SIZE] frames, when every track below
    [track_count] is skipped (muted, not playing, or shut out by a solo),
    and in particular when there is no track, the callback outputs
    silence: the buffer holds zeros, the master peak and RMS are zero,
    and the tracks and the filter memory are as they were. *)
Theorem all_skipped_is_silence (e : AudioEngine) (fs : FilterState)
    (out : list float) (frame_count : Z) :
  engine_playing e = true ->
  engine_wf e ->
  (0 < frame_count <= BUFFER_SIZE)%Z ->
  length out = Z.to_nat (frame_count * CHANNELS) ->
  (forall (t : nat) (track : Track),
     (t < Z.to_nat (track_count e))%nat ->
     tracks e !! t = Some track -> skip_condition e track) ->
  let final := audio_callback e fs out frame_count in
  st_out final = replicate (Z.to_nat (frame_count * CHANNELS)) 0 /\
  master_peak (st_engine final) = (0, 0) /\
  master_rms (st_engine final) = (0, 0) /\
  tracks (st_engine final) = tracks e /\
  st_filters final = fs.
Proof.
  intros Hplay _ Hfc Hlen Hskip. cbn zeta.
  assert (Hfit : (0 <= frame_count * CHANNELS < 2 ^ 32)%Z)
    by (unfold CHANNELS, BUFFER_SIZE in *; lia).
  rewrite callback_renders_included by exact Hplay.
  assert (Hnone : included_tracks e = []).
  { apply elem_of_nil_inv. intros t Hin.
    destruct (included_is_some e t Hin) as [track Ht].
    assert (Hlt : (t < Z.to_nat (track_count e))%nat).
    { unfold included_tracks in Hin.
      apply list_elem_of_filter in Hin as [_ Hseq].
      apply elem_of_seq in Hseq. lia. }
    destruct (included_iff e t track Hlt Ht) as [Hpass _].
    apply Hpass in Hin. apply Hin. apply (Hskip t track Hlt Ht). }
  rewrite Hnone. cbn [foldl].
  destruct (loop_exit_shape e fs out frame_count [] Hfit Hlen)
    as (Hl & Hpk & Hrm & _). cbn [foldl] in *.
  rewrite (master_stage_spec _ frame_count Hl Hpk Hrm).
  cbn [st_out st_engine st_filters master_peak master_rms tracks
       set_master_meters].
  unfold loop_entry. cbn [st_out st_engine st_filters master_volume
                          set_master_meters tracks].
  rewrite (zeroed_floats_whole out frame_count Hfit Hlen).
  rewrite map_scale_zeros.
  replace (Z.to_nat (frame_count * CHANNELS))
    with (2 * Z.to_nat frame_count)%nat by (unfold CHANNELS in *; lia).
  rewrite deinterleave_zeros. cbn [fst snd].
  destruct (meters_of_zeros (Z.to_nat frame_count)) as [-> ->].
  unfold Rdiv. rewrite Rmult_0_l, sqrt_0.
  repeat split; reflexivity.
Qed.

Lemma idle_engine_wf : engine_wf idle_engine.
Proof. split; [ reflexivity | simpl; unfold MAX_TRACKS; lia ]. Qed.

(** A session whose two tracks are muted and stopped. *)
Lemma all_skipped_is_silence_witness :
  st_out (audio_callback idle_engine zero_filters [1; 2; 3; 4] 2)
  = replicate (Z.to_nat (2 * CHANNELS)) 0.
Proof.
  apply (all_skipped_is_silence idle_engine zero_filters [1; 2; 3; 4] 2).
  - reflexivity.
  - exact idle_engine_wf.
  - unfold BUFFER_SIZE. lia.
  - reflexivity.
  - intros t track Hlt Ht. simpl in Hlt.
    destruct t as [|[|t]]; [ | | lia ]; injection Ht as <-.
    + left. reflexivity.
    + right. left. reflexivity.
Defined.

(** ** Callback: what the audio thread writes and what it leaves alone *)

Lemma controls_eq_refl (a : Track) : controls_eq a a.
Proof. repeat split; reflexivity. Qed.

Lemma controls_eq_trans (a b c : Track) :
  controls_eq a b -> controls_eq b c -> controls_eq a c.
Proof.
  unfold controls_eq. intros Hab Hbc. destruct_and!.
  repeat split; congruence.
Qed.

Lemma tracks_controls_insert (l k : list Track) :
  Forall2 controls_eq l k ->
  forall (t : nat) (x track : Track),
  l !! t = Some track -> controls_eq x track ->
  Forall2 controls_eq (<[t := x]> l) k.
Proof.
  induction 1 as [|a b l k Hab Hlk IH]; intros t x track Ht Hx.
  - constructor.
  - destruct t as [|t]; simpl in *.
    + injection Ht as ->. constructor; [ | exact Hlk ].
      eapply controls_eq_trans; eassumption.
    + constructor; [ exact Hab | ]. eapply IH; eassumption.
Qed.

Lemma foldl_render_controls (frame_count : Z) (l : list nat)
    (k : list Track) :
  forall st : MixState,
  Forall2 controls_eq (tracks (st_engine st)) k ->
  Forall2 controls_eq
    (tracks (st_engine (foldl (render_at frame_count) st l))) k.
Proof.
  induction l as [|t l IH]; intros st Hst; [ exact Hst | ].
  simpl. apply IH. unfold render_at.
  destruct (tracks (st_engine st) !! t) as [track|] eqn:Ht; [ | exact Hst ].
  destruct (render_track_slot frame_count t track st Ht) as (pk & rm & ->).
  eapply tracks_controls_insert; [ exact Hst | exact Ht | ].
  repeat split; reflexivity.
Qed.

Lemma filter_case_shape (step : float -> Effect -> float -> float * float)
    (effect : Effect) (t : nat) (left right : list float)
    (fs : FilterState) :
  length (filter_state_l (snd (filter_case step effect t left right fs)))
  = length (filter_state_l fs) /\
  length (filter_state_r (snd (filter_case step effect t left right fs)))
  = length (filter_state_r fs).
Proof.
  unfold filter_case.
  destruct (filter_state_l fs !! t); [ | split; reflexivity ].
  destruct (filter_state_r fs !! t); [ | split; reflexivity ].
  destruct (filter_run step effect left _).
  destruct (filter_run step effect right _).
  simpl. rewrite !length_insert. split; reflexivity.
Qed.

Lemma effects_loop_shape (chain : list Effect) (t : nat) :
  forall (left right : list float) (fs : FilterState),
  length (filter_state_l (snd (effects_loop chain t left right fs)))
  = length (filter_state_l fs) /\
  length (filter_state_r (snd (effects_loop chain t left right fs)))
  = length (filter_state_r fs).
Proof.
  induction chain as [|effect chain IH]; intros left right fs; simpl.
  - split; reflexivity.
  - assert (H1 : length (filter_state_l
                           (snd (apply_effect effect t left right fs)))
                 = length (filter_state_l fs) /\
                 length (filter_state_r
                           (snd (apply_effect effect t left right fs)))
                 = length (filter_state_r fs)).
    { unfold apply_effect. destruct (type effect); simpl;
        try (split; reflexivity); apply filter_case_shape. }
    destruct (apply_effect effect t left right fs) as [[l1 r1] fs1].
    simpl in H1. destruct (IH l1 r1 fs1) as [H2 H3].
    destruct H1 as [H4 H5]. split; congruence.
Qed.

Lemma foldl_render_filter_shape (frame_count : Z) (l : list nat) :
  forall st : MixState,
  length (filter_state_l
            (st_filters (foldl (render_at frame_count) st l)))
  = length (filter_state_l (st_filters st)) /\
  length (filter_state_r
            (st_filters (foldl (render_at frame_count) st l)))
  = length (filter_state_r (st_filters st)).
Proof.
  induction l as [|t l IH]; intros st; [ split; reflexivity | ].
  simpl. destruct (IH (render_at frame_count st t)) as [H1 H2].
  rewrite H1, H2. unfold render_at.
  destruct (tracks (st_engine st) !! t) as [track|];
    [ | split; reflexivity ].
  rewrite render_track_unfold. cbn [st_filters].
  unfold effects_stage, process_track_effects.
  destruct (0 <? _)%Z; [ apply effects_loop_shape | split; reflexivity ].
Qed.

(** X20. For a well-formed engine, a period of at most [BUFFER_SIZE]
    frames and an output buffer of [frame_count * 2] floats, playing or
    not, the callback writes only audio state.  It never changes
    [track_count], [master_volume], the two engine flags or the device;
    in every track slot it leaves the name, volume, pan, mute, solo,
    armed, frequency, playing flag, effect array and effect count as they
    were (only phase and meters can differ); and it keeps the sizes of
    the track array, of the output buffer and of the two filter memory
    arrays. *)
Theorem callback_writes_only_audio_state (e : AudioEngine)
    (fs : FilterState) (out : list float) (frame_count : Z) :
  engine_wf e ->
  (0 <= frame_count <= BUFFER_SIZE)%Z ->
  length out = Z.to_nat (frame_count * CHANNELS) ->
  let final := audio_callback e fs out frame_count in
  track_count (st_engine final) = track_count e /\
  master_volume (st_engine final) = master_volume e /\
  engine_playing (st_engine final) = engine_playing e /\
  initialized (st_engine final) = initialized e /\
  device (st_engine final) = device e /\
  log_ready (st_engine final) = log_ready e /\
  Forall2 controls_eq (tracks (st_engine final)) (tracks e) /\
  length (st_out final) = length out /\
  length (filter_state_l (st_filters final)) = length (filter_state_l fs) /\
  length (filter_state_r (st_filters final)) = length (filter_state_r fs).
Proof.
  intros _ _ _. cbn zeta.
  assert (Hrefl : Forall2 controls_eq (tracks e) (tracks e)).
  { apply Forall_Forall2_diag, Forall_true. intros a. apply controls_eq_refl. }
  destruct (engine_playing e) eqn:Hplay.
  - rewrite callback_renders_included by exact Hplay.
    set (st0 := loop_entry e fs out frame_count).
    destruct (foldl_render_engine frame_count (included_tracks e) st0)
      as (k & Hk & _).
    pose proof (foldl_render_controls frame_count (included_tracks e)
                  (tracks e) st0 Hrefl) as Hctl.
    destruct (foldl_render_filter_shape frame_count (included_tracks e) st0)
      as [Hfl Hfr].
    pose proof (foldl_render_out_length frame_count (included_tracks e) st0)
      as Hol.
    destruct (master_stage_tracks
                (foldl (render_at frame_count) st0 (included_tracks e))
                frame_count) as [Htr Hfs].
    rewrite Htr, Hfs.
    unfold master_stage.
    pose proof (master_loop_out_length (Z.to_nat frame_count)
                  (st_out (foldl (render_at frame_count) st0
                             (included_tracks e))) 0
                  (master_volume (st_engine
                     (foldl (render_at frame_count) st0 (included_tracks e))))
                  (master_peak (st_engine
                     (foldl (render_at frame_count) st0 (included_tracks e))))
                  (master_rms (st_engine
                     (foldl (render_at frame_count) st0 (included_tracks e)))))
      as Hml.
    destruct (master_loop _ _ _ _ _ _) as [[out' pk] rm].
    cbn [st_engine st_out set_master_meters track_count master_volume
         engine_playing initialized device log_ready fst] in *.
    rewrite Hk. cbn [set_tracks track_count master_volume engine_playing
                     initialized device log_ready].
    unfold st0, loop_entry in *. cbn [st_engine st_out st_filters
      set_master_meters track_count master_volume engine_playing initialized
      device log_ready] in *.
    rewrite memset_zero_length in Hol.
    repeat split; try reflexivity; try assumption; try congruence.
  - unfold audio_callback. rewrite Hplay. simpl.
    rewrite memset_zero_length.
    repeat split; try reflexivity; try assumption.
Qed.

Lemma callback_writes_only_audio_state_witness :
  track_count (st_engine (audio_callback filtered_engine zero_filters
                            [1; 1; 1; 1] 2))
  = track_count filtered_engine /\
  Forall2 controls_eq
    (tracks (st_engine (audio_callback filtered_engine zero_filters
                          [1; 1; 1; 1] 2)))
    (tracks filtered_engine).
Proof.
  assert (Hfc : (0 <= 2 <= BUFFER_SIZE)%Z) by (unfold BUFFER_SIZE; lia).
  destruct (callback_writes_only_audio_state filtered_engine zero_filters
              [1; 1; 1; 1] 2 filtered_engine_wf Hfc eq_refl)
    as (Hcount & _ & _ & _ & _ & _ & Hctl & _).
  split; [ exact Hcount | exact Hctl ].
Defined.

(** X21. With the engine playing, a period of at most [BUFFER_SIZE]
    frames and an output buffer of [frame_count * 2] floats, a track that
    passes the eligibility test leaves the callback with its oscillator
    advanced by exactly [frame_count] samples: its phase is the phase
    reached after [frame_count] advances, whose sine is
    [sin(phase + frame_count * 2*pi*frequency/sample_rate)], so the next
    period continues the waveform where this one stopped. *)
Theorem included_track_phase_advances (e : AudioEngine) (fs : FilterState)
    (out : list float) (frame_count : Z) (t : nat) (track : Track) :
  engine_playing e = true ->
  engine_wf e ->
  (0 <= frame_count <= BUFFER_SIZE)%Z ->
  length out = Z.to_nat (frame_count * CHANNELS) ->
  (t < Z.to_nat (track_count e))%nat ->
  tracks e !! t = Some track ->
  ~ skip_condition e track ->
  exists track' : Track,
    tracks (st_engine (audio_callback e fs out frame_count)) !! t
    = Some track' /\
    phase track' = phase_at track (Z.to_nat frame_count) /\
    sin (phase track')
    = sin (phase track + INR (Z.to_nat frame_count) * phase_step track).
Proof.
  intros Hplay _ _ _ Hlt Ht Hpass. apply not_skipped_iff in Hpass.
  destruct (included_slot e fs out frame_count t track Hplay Hlt Ht Hpass)
    as (pk & rm & Hslot).
  eexists. split; [ exact Hslot | ]. cbn [phase set_meters set_phase].
  split; [ reflexivity | ].
  destruct (phase_at_unwrapped track (Z.to_nat frame_count)) as [k Hk].
  rewrite <- Hk. symmetry. apply sin_period.
Qed.

Lemma included_track_phase_advances_witness :
  exists track' : Track,
    tracks (st_engine (audio_callback demo_engine zero_filters
                         [0; 0; 0; 0] 2)) !! 1%nat = Some track' /\
    phase track' = phase_at (demo_track "Lead" 440 false true true) 2.
Proof.
  assert (Hfc : (0 <= 2 <= BUFFER_SIZE)%Z) by (unfold BUFFER_SIZE; lia).
  assert (Hlt : (1 < Z.to_nat (track_count demo_engine))%nat)
    by (simpl; lia).
  assert (Hpass : ~ skip_condition demo_engine
                      (demo_track "Lead" 440 false true true)).
  { intros [H | [H | [_ H]]]; discriminate. }
  destruct (included_track_phase_advances demo_engine zero_filters
              [0; 0; 0; 0] 2 1 (demo_track "Lead" 440 false true true)
              eq_refl demo_engine_wf Hfc eq_refl Hlt eq_refl Hpass)
    as (track' & Hslot & Hph & _).
  exists track'. split; assumption.
Defined.

(** ** Control thread: the interaction handler *)

Lemma with_track_frame (index : Z) (f : Track -> Track) (e : AudioEngine) :
  track_count (with_track index f e) = track_count e /\
  master_volume (with_track index f e) = master_volume e /\
  engine_playing (with_track index f e) = engine_playing e /\
  initialized (with_track index f e) = initialized e /\
  length (tracks (with_track index f e)) = length (tracks e).
Proof.
  unfold with_track. destruct (track_index_ok index e); simpl;
    rewrite ?length_alter; repeat split; reflexivity.
Qed.

Lemma with_track_lookup (index : Z) (f : Track -> Track) (e : AudioEngine)
    (j : nat) :
  tracks (with_track index f e) !! j
  = (fun track => if toggled index e j then f track else track)
      <$> tracks e !! j.
Proof.
  unfold with_track, toggled.
  destruct (track_index_ok index e); simpl.
  - rewrite list_lookup_alter.
    destruct (decide (Z.to_nat index = j)) as [-> | Hne].
    + rewrite Nat.eqb_refl. reflexivity.
    + apply Nat.eqb_neq in Hne. rewrite Hne.
      destruct (tracks e !! j); reflexivity.
  - destruct (tracks e !! j); reflexivity.
Qed.

Lemma with_track_wf (index : Z) (f : Track -> Track) (e : AudioEngine) :
  (forall track, track_wf track -> track_wf (f track)) ->
  engine_wf e -> tracks_wf e ->
  engine_wf (with_track index f e) /\ tracks_wf (with_track index f e).
Proof.
  intros Hf [Hlen Hcnt] Htr. unfold with_track, tracks_wf in *.
  destruct (track_index_ok index e); simpl;
    [ | split; [ split; assumption | assumption ] ].
  split.
  - split; simpl; [ rewrite length_alter; exact Hlen | exact Hcnt ].
  - apply Forall_alter; [ exact Htr | ]. intros x _ Hx. apply Hf. exact Hx.
Qed.

Lemma with_track_skip (index : Z) (f : Track -> Track) (e : AudioEngine) :
  track_index_ok index e = false -> with_track index f e = e.
Proof. intros H. unfold with_track. rewrite H. reflexivity. Qed.

(** X22. A handler call that carries no request changes nothing: with the
    four track indices outside [0, track_count) (the idle value -1
    included), the master toggle off, and the add-track flag off or the
    engine full, the engine comes back as it went in. *)
Theorem ui_without_requests_is_noop (ui : UIState) (e : AudioEngine) :
  track_index_ok (track_play_toggle ui) e = false ->
  track_index_ok (track_mute_toggle ui) e = false ->
  track_index_ok (track_solo_toggle ui) e = false ->
  track_index_ok (track_add_effect ui) e = false ->
  master_play_toggle ui = false ->
  add_track_requested ui = false \/ (MAX_TRACKS <= track_count e)%Z ->
  ui_handle_interactions ui e = e.
Proof.
  intros Hp Hm Hs Hfx Hmaster Hadd. unfold ui_handle_interactions.
  rewrite (with_track_skip _ _ e Hp).
  rewrite (with_track_skip _ _ e Hm).
  rewrite (with_track_skip _ _ e Hs).
  rewrite Hmaster.
  assert (Hno : add_track_requested ui && (track_count e <? MAX_TRACKS)%Z
                = false).
  { destruct Hadd as [-> | Hfull]; [ reflexivity | ].
    destruct (Z.ltb_spec (track_count e) MAX_TRACKS); [ lia | ].
    apply andb_false_r. }
  rewrite Hno. apply with_track_skip. exact Hfx.
Qed.

Lemma ui_without_requests_is_noop_witness :
  ui_handle_interactions idle_ui demo_engine = demo_engine.
Proof.
  apply ui_without_requests_is_noop; try reflexivity.
  left. reflexivity.
Defined.

Lemma flag_setters_wf (track : Track) :
  track_wf track ->
  track_wf (set_playing track (negb (playing track))) /\
  track_wf (set_mute track (negb (mute track))) /\
  track_wf (set_solo track (negb (solo track))).
Proof. intros Hwf. repeat split; apply Hwf. Qed.

(** X23. The handler keeps the engine invariants for every UI state: on
    a well-formed engine whose slots are well-formed tracks, the result
    is again such an engine (16 slots, [0 <= track_count <= 16], every
    chain within 8 effects); [track_count] stays or grows by one; and
    [master_volume] and [initialized] are not touched. *)
Theorem ui_handler_keeps_invariants (ui : UIState) (e : AudioEngine) :
  engine_wf e -> tracks_wf e ->
  let e' := ui_handle_interactions ui e in
  engine_wf e' /\ tracks_wf e' /\
  (track_count e <= track_count e' <= track_count e + 1)%Z /\
  master_volume e' = master_volume e /\
  initialized e' = initialized e.
Proof.
  intros Hwf Htr. cbn zeta. unfold ui_handle_interactions.
  set (e1 := with_track (track_play_toggle ui) _ e).
  set (e2 := with_track (track_mute_toggle ui) _ e1).
  set (e3 := with_track (track_solo_toggle ui) _ e2).
  set (e4 := if master_play_toggle ui then _ else e3).
  set (e5 := if add_track_requested ui && _ then _ else e4).
  destruct (with_track_wf (track_play_toggle ui)
              (fun track => set_playing track (negb (playing track))) e
              ltac:(intros t Ht; apply (flag_setters_wf t Ht)) Hwf Htr)
    as [Hwf1 Htr1]. fold e1 in Hwf1, Htr1.
  destruct (with_track_wf (track_mute_toggle ui)
              (fun track => set_mute track (negb (mute track))) e1
              ltac:(intros t Ht; apply (flag_setters_wf t Ht)) Hwf1 Htr1)
    as [Hwf2 Htr2]. fold e2 in Hwf2, Htr2.
  destruct (with_track_wf (track_solo_toggle ui)
              (fun track => set_solo track (negb (solo track))) e2
              ltac:(intros t Ht; apply (flag_setters_wf t Ht)) Hwf2 Htr2)
    as [Hwf3 Htr3]. fold e3 in Hwf3, Htr3.
  assert (H4 : engine_wf e4 /\ tracks_wf e4 /\
               track_count e4 = track_count e3 /\
               master_volume e4 = master_volume e3 /\
               initialized e4 = initialized e3).
  { unfold e4. destruct (master_play_toggle ui);
      repeat split; try apply Hwf3; try exact Htr3. }
  destruct H4 as (Hwf4 & Htr4 & Hc4 & Hv4 & Hi4).
  assert (H5 : engine_wf e5 /\ tracks_wf e5 /\
               (track_count e4 <= track_count e5 <= track_count e4 + 1)%Z /\
               master_volume e5 = master_volume e4 /\
               initialized e5 = initialized e4).
  { unfold e5. destruct (add_track_requested ui && _).
    - destruct (add_track_keeps_invariants_parts e4
                  (format_track_name (track_count e4 + 1))
                  (next_track_frequency (track_count e4)) Hwf4 Htr4)
        as (Ha & Hb & Hc & Hd & He).
      repeat split; try apply Ha; try assumption; lia.
    - repeat split; try apply Hwf4; try exact Htr4; lia. }
  destruct H5 as (Hwf5 & Htr5 & Hc5 & Hv5 & Hi5).
  destruct (with_track_wf (track_add_effect ui)
              (fun track => audio_engine_add_effect track (effect_to_add ui))
              e5 ltac:(intros t Ht; apply add_effect_wf; exact Ht) Hwf5 Htr5)
    as [Hwf6 Htr6].
  destruct (with_track_frame (track_add_effect ui)
              (fun track => audio_engine_add_effect track (effect_to_add ui))
              e5) as (Hc6 & Hv6 & _ & Hi6 & _).
  destruct (with_track_frame (track_play_toggle ui)
              (fun track => set_playing track (negb (playing track))) e)
    as (Hc1 & Hv1 & _ & Hi1 & _). fold e1 in Hc1, Hv1, Hi1.
  destruct (with_track_frame (track_mute_toggle ui)
              (fun track => set_mute track (negb (mute track))) e1)
    as (Hc2 & Hv2 & _ & Hi2 & _). fold e2 in Hc2, Hv2, Hi2.
  destruct (with_track_frame (track_solo_toggle ui)
              (fun track => set_solo track (negb (solo track))) e2)
    as (Hc3 & Hv3 & _ & Hi3 & _). fold e3 in Hc3, Hv3, Hi3.
  split; [ exact Hwf6 | ]. split; [ exact Htr6 | ].
  split; [ lia | ]. split; congruence.
Qed.

Lemma ui_handler_keeps_invariants_witness :
  engine_wf (ui_handle_interactions
               (mkUIState true 0 (-1) (-1) true 0 EFFECT_GAIN) zero_engine).
Proof.
  apply (ui_handler_keeps_invariants
           (mkUIState true 0 (-1) (-1) true 0 EFFECT_GAIN) zero_engine);
    apply zero_engine_wf.
Defined.

Lemma toggled_same_count (index : Z) (e1 e2 : AudioEngine) (j : nat) :
  track_count e1 = track_count e2 -> toggled index e1 j = toggled index e2 j.
Proof.
  intros Hc. unfold toggled, track_index_ok. rewrite Hc. reflexivity.
Qed.

Lemma add_effect_keeps_mix_fields (b : bool) (track : Track)
    (ty : EffectType) :
  let track' := if b then audio_engine_add_effect track ty else track in
  name track' = name track /\ volume track' = volume track /\
  pan track' = pan track /\ mute track' = mute track /\
  solo track' = solo track /\ armed track' = armed track /\
  frequency track' = frequency track /\ phase track' = phase track /\
  playing track' = playing track /\
  peak_level track' = peak_level track /\ rms_level track' = rms_level track.
Proof.
  cbn zeta. unfold audio_engine_add_effect.
  destruct b; [ | repeat split; reflexivity ].
  destruct (effect_count track >=? MAX_EFFECTS_PER_TRACK)%Z;
    repeat split; reflexivity.
Qed.

(** X24. For a track below [track_count], one handler call flips its
    playing, mute and solo flag exactly when the matching toggle index
    names it, and flips the engine's playing flag exactly when the master
    toggle is set; the track's name, volume, pan, armed flag, frequency,
    phase and meters are the same after the call, whatever else the UI
    state requests. *)
Theorem ui_flips_requested_flags (ui : UIState) (e : AudioEngine)
    (j : nat) (track : Track) :
  (j < Z.to_nat (track_count e))%nat ->
  tracks e !! j = Some track ->
  let e' := ui_handle_interactions ui e in
  engine_playing e' = xorb (engine_playing e) (master_play_toggle ui) /\
  exists track' : Track,
    tracks e' !! j = Some track' /\
    playing track'
    = xorb (playing track) (toggled (track_play_toggle ui) e j) /\
    mute track' = xorb (mute track) (toggled (track_mute_toggle ui) e j) /\
    solo track' = xorb (solo track) (toggled (track_solo_toggle ui) e j) /\
    name track' = name track /\ volume track' = volume track /\
    pan track' = pan track /\ armed track' = armed track /\
    frequency track' = frequency track /\ phase track' = phase track /\
    peak_level track' = peak_level track /\
    rms_level track' = rms_level track.
Proof.
  intros Hj Ht. cbn zeta. unfold ui_handle_interactions.
  set (f1 := fun track : Track => set_playing track (negb (playing track))).
  set (f2 := fun track : Track => set_mute track (negb (mute track))).
  set (f3 := fun track : Track => set_solo track (negb (solo track))).
  set (f6 := fun track : Track =>
               audio_engine_add_effect track (effect_to_add ui)).
  set (e1 := with_track (track_play_toggle ui) f1 e).
  set (e2 := with_track (track_mute_toggle ui) f2 e1).
  set (e3 := with_track (track_solo_toggle ui) f3 e2).
  set (e4 := if master_play_toggle ui then _ else e3).
  set (e5 := if add_track_requested ui && _ then _ else e4).
  destruct (with_track_frame (track_play_toggle ui) f1 e)
    as (Hc1 & _ & Hp1 & _). fold e1 in Hc1, Hp1.
  destruct (with_track_frame (track_mute_toggle ui) f2 e1)
    as (Hc2 & _ & Hp2 & _). fold e2 in Hc2, Hp2.
  destruct (with_track_frame (track_solo_toggle ui) f3 e2)
    as (Hc3 & _ & Hp3 & _). fold e3 in Hc3, Hp3.
  assert (H4 : tracks e4 = tracks e3 /\ track_count e4 = track_count e3 /\
               engine_playing e4
               = xorb (engine_playing e3) (master_play_toggle ui)).
  { unfold e4. destruct (master_play_toggle ui); simpl.
    - rewrite xorb_true_r. repeat split; reflexivity.
    - rewrite xorb_false_r. repeat split; reflexivity. }
  destruct H4 as (Ht4 & Hc4 & Hp4).
  assert (H5 : tracks e5 !! j = tracks e4 !! j /\
               engine_playing e5 = engine_playing e4).
  { unfold e5. destruct (add_track_requested ui && _);
      [ | split; reflexivity ].
    split.
    - apply add_track_below; lia.
    - unfold audio_engine_add_track.
      destruct (track_count e4 >=? MAX_TRACKS)%Z; reflexivity. }
  destruct H5 as (Ht5 & Hp5).
  destruct (with_track_frame (track_add_effect ui) f6 e5)
    as (_ & _ & Hp6 & _).
  split; [ congruence | ].
  rewrite with_track_lookup, Ht5, Ht4.
  unfold e3. rewrite with_track_lookup.
  unfold e2. rewrite with_track_lookup.
  unfold e1. rewrite with_track_lookup, Ht. cbn [fmap option_fmap option_map].
  fold e1. fold e2.
  rewrite (toggled_same_count (track_mute_toggle ui) e1 e j Hc1).
  rewrite (toggled_same_count (track_solo_toggle ui) e2 e j)
    by congruence.
  eexists. split; [ reflexivity | ].
  match goal with
  | |- context [if toggled (track_add_effect ui) e5 j then f6 ?t else _] =>
      set (t3 := t)
  end.
  destruct (add_effect_keeps_mix_fields
              (toggled (track_add_effect ui) e5 j) t3 (effect_to_add ui))
    as (K1 & K2 & K3 & K4 & K5 & K6 & K7 & K8 & K9 & K10 & K11).
  unfold f6. rewrite K1, K2, K3, K4, K5, K6, K7, K8, K9, K10, K11.
  unfold t3, f1, f2, f3.
  destruct (toggled (track_play_toggle ui) e j),
           (toggled (track_mute_toggle ui) e j),
           (toggled (track_solo_toggle ui) e j);
    rewrite ?xorb_true_r, ?xorb_false_r; simpl; repeat split; reflexivity.
Qed.

Lemma ui_flips_requested_flags_witness :
  exists track' : Track,
    tracks (ui_handle_interactions
              (mkUIState false (-1) 0 (-1) false (-1) EFFECT_NONE)
              demo_engine) !! 0%nat = Some track' /\
    mute track'
    = xorb (mute (demo_track "Bass" 110 false false true))
           (toggled 0 demo_engine 0).
Proof.
  assert (Hlt : (0 < Z.to_nat (track_count demo_engine))%nat)
    by (simpl; lia).
  destruct (ui_flips_requested_flags
              (mkUIState false (-1) 0 (-1) false (-1) EFFECT_NONE)
              demo_engine 0 (demo_track "Bass" 110 false false true)
              Hlt eq_refl) as (_ & track' & Hslot & _ & Hmute & _).
  exists track'. split; assumption.
Defined.

Lemma track_name_fits (n : Z) :
  (1 <= n <= 16)%Z ->
  snprintf_name (format_track_name n)
  = ("Track " ++ NilZero.string_of_int (Z.to_int n))%string.
Proof.
  intros Hn.
  assert (Hcases : (n = 1 \/ n = 2 \/ n = 3 \/ n = 4 \/ n = 5 \/ n = 6 \/
                    n = 7 \/ n = 8 \/ n = 9 \/ n = 10 \/ n = 11 \/ n = 12 \/
                    n = 13 \/ n = 14 \/ n = 15 \/ n = 16)%Z) by lia.
  repeat (destruct Hcases as [-> | Hcases]; [ reflexivity | ]).
  subst n. reflexivity.
Qed.

Lemma next_track_frequency_steps :
  next_track_frequency 0 = 220 /\
  forall count : Z,
    next_track_frequency (count + 12) = 2 * next_track_frequency count.
Proof.
  unfold next_track_frequency. split.
  - replace (IZR 0 / 12) with 0 by (simpl; lra).
    rewrite Rpower_O by lra. lra.
  - intros count. rewrite plus_IZR.
    replace ((IZR count + 12) / 12) with (IZR count / 12 + 1) by field.
    rewrite Rpower_plus, Rpower_1 by lra. ring.
Qed.

(** X25. An add-track request on a well-formed engine with room adds one
    track through [add_track]: the count grows by one and the slot at the
    old count holds a stopped, unmuted, unsoloed track at volume 0.75,
    pan 0 and phase 0, named "Track n" with n the new count, whose
    frequency is [220 * 2^(old count / 12)]: 220 Hz for the first track,
    a semitone up per track, an octave up every twelve tracks. *)
Theorem ui_add_track_request (ui : UIState) (e : AudioEngine) :
  engine_wf e ->
  add_track_requested ui = true ->
  (track_count e < MAX_TRACKS)%Z ->
  let e' := ui_handle_interactions ui e in
  track_count e' = (track_count e + 1)%Z /\
  (exists track : Track,
     tracks e' !! Z.to_nat (track_count e) = Some track /\
     name track
     = ("Track " ++ NilZero.string_of_int (Z.to_int (track_count e + 1)))%string
     /\ frequency track = 220 * Rpower 2 (IZR (track_count e) / 12) /\
     volume track = 0.75 /\ pan track = 0 /\ phase track = 0 /\
     mute track = false /\ solo track = false /\ playing track = false) /\
  next_track_frequency 0 = 220 /\
  forall count : Z,
    next_track_frequency (count + 12) = 2 * next_track_frequency count.
Proof.
  intros [Hlen Hcnt] Hreq Hroom. cbn zeta. unfold ui_handle_interactions.
  set (f1 := fun track : Track => set_playing track (negb (playing track))).
  set (f2 := fun track : Track => set_mute track (negb (mute track))).
  set (f3 := fun track : Track => set_solo track (negb (solo track))).
  set (f6 := fun track : Track =>
               audio_engine_add_effect track (effect_to_add ui)).
  set (e1 := with_track (track_play_toggle ui) f1 e).
  set (e2 := with_track (track_mute_toggle ui) f2 e1).
  set (e3 := with_track (track_solo_toggle ui) f3 e2).
  set (e4 := if master_play_toggle ui then _ else e3).
  destruct (with_track_frame (track_play_toggle ui) f1 e)
    as (Hc1 & _ & _ & _ & Hl1). fold e1 in Hc1, Hl1.
  destruct (with_track_frame (track_mute_toggle ui) f2 e1)
    as (Hc2 & _ & _ & _ & Hl2). fold e2 in Hc2, Hl2.
  destruct (with_track_frame (track_solo_toggle ui) f3 e2)
    as (Hc3 & _ & _ & _ & Hl3). fold e3 in Hc3, Hl3.
  assert (H4 : track_count e4 = track_count e /\
               length (tracks e4) = length (tracks e)).
  { unfold e4. destruct (master_play_toggle ui); simpl; split; congruence. }
  destruct H4 as [Hc4 Hl4].
  rewrite Hreq, Hc4.
  destruct (Z.ltb_spec (track_count e) MAX_TRACKS) as [_ | Hge]; [ | lia ].
  cbn [andb].
  set (e5 := snd (audio_engine_add_track e4 _ _)).
  destruct (with_track_frame (track_add_effect ui) f6 e5)
    as (Hc6 & _). rewrite Hc6.
  assert (Hc5 : track_count e5 = (track_count e + 1)%Z).
  { unfold e5. rewrite add_track_count, Hc4.
    destruct (Z.geb_spec (track_count e) MAX_TRACKS); [ lia | reflexivity ]. }
  split; [ exact Hc5 | ]. split; [ | apply next_track_frequency_steps ].
  assert (Hin : (Z.to_nat (track_count e) < length (tracks e4))%nat).
  { rewrite Hl4, Hlen. unfold MAX_TRACKS in *. lia. }
  destruct (lookup_lt_is_Some_2 _ _ Hin) as [old Hold].
  assert (H5 : tracks e5 !! Z.to_nat (track_count e)
               = Some (mkTrack
                         (snprintf_name
                            (format_track_name (track_count e + 1)))
                         0.75 0 false false false
                         (next_track_frequency (track_count e)) 0 false
                         (effects old) 0%Z (peak_level old) (rms_level old))).
  { unfold e5, audio_engine_add_track. rewrite Hc4.
    destruct (Z.geb_spec (track_count e) MAX_TRACKS); [ lia | ].
    cbn [snd tracks]. rewrite list_lookup_alter_eq, Hold. reflexivity. }
  rewrite with_track_lookup, H5. cbn [fmap option_fmap option_map].
  eexists. split; [ reflexivity | ].
  rewrite <- (track_name_fits (track_count e + 1))
    by (unfold MAX_TRACKS in *; lia).
  match goal with
  | |- context [if toggled (track_add_effect ui) e5 ?j then f6 ?t else _] =>
      destruct (add_effect_keeps_mix_fields
                  (toggled (track_add_effect ui) e5 j) t (effect_to_add ui))
        as (K1 & K2 & K3 & K4 & K5 & K6 & K7 & K8 & K9 & _)
  end.
  unfold f6. rewrite K1, K2, K3, K4, K5, K7, K8, K9.
  repeat split; reflexivity.
Qed.

Lemma ui_add_track_request_witness :
  track_count (ui_handle_interactions
                 (mkUIState true (-1) (-1) (-1) false (-1) EFFECT_NONE)
                 demo_engine) = 4%Z.
Proof.
  apply (ui_add_track_request
           (mkUIState true (-1) (-1) (-1) false (-1) EFFECT_NONE)
           demo_engine).
  - apply demo_engine_wf.
  - reflexivity.
  - simpl. unfold MAX_TRACKS. lia.
Defined.

(** ** Volume: the whole track path is linear *)













